(** * webpack [lib/config/target.js]: target resolution and merging

    A shallow embedding of [lib/config/target.js]:
    - [versionDependent], the version comparator handed to the handlers;
    - [TARGETS], the ordered table of (name, description, RegExp, handler);
    - [getTargetProperties], the linear scan of the table that either
      returns the handler's object or throws the "Unknown target" error;
    - [mergeTargetProperties] and [getTargetsProperties].

    JavaScript values are modelled as follows.
    - A flag value is [true], [false] or [undefined]: the type [value].
    - An object of flags is a finite map from property names to [value]
      (a key may be present and hold [undefined]).
    - A string is a Rocq [string]; every pattern of the table only tests for
      ASCII characters.
    - A Number is an IEEE-754 binary64 value: [to_number] rounds the decimal
      text to the nearest double, ties to even.
    - A thrown [Error] is the constructor [Throw] carrying the message. *)

From Stdlib Require Import ZArith Lia Ascii String.
From stdpp Require Import base option list strings gmap.

Local Open Scope Z_scope.

(** ** Flag values and objects *)

Inductive value : Type :=
| VTrue
| VFalse
| VUndefined.

Global Instance value_eq_dec : EqDecision value.
Proof. solve_decision. Defined.

Definition of_bool (b : bool) : value := if b then VTrue else VFalse.

(** [value === true], [value === false], [value === undefined] *)
Definition is_true (v : value) : bool :=
  match v with VTrue => true | _ => false end.
Definition is_false (v : value) : bool :=
  match v with VFalse => true | _ => false end.
Definition is_undefined (v : value) : bool :=
  match v with VUndefined => true | _ => false end.

(** ToBoolean on a flag value *)
Definition truthy (v : value) : bool :=
  match v with VTrue => true | _ => false end.

(** A JavaScript object whose properties are flags. *)
Abbreviation obj := (gmap string value).

(** [tp[key]]: a missing property reads as [undefined].  (A property
    inherited from [Object.prototype] is a function, neither [true] nor
    [false]; the merge treats it as it treats [undefined].) *)
Definition get (tp : obj) (key : string) : value :=
  default VUndefined (tp !! key).

(** [Object.keys(tp)] *)
Definition Object_keys (tp : obj) : list string := elements (dom tp).

(** ** Regular expressions

    The fragment of RegExp syntax used by [TARGETS].  Every pattern of the
    table has the form [/^r$/]; a [regex] is the [r] between the anchors. *)

Inductive regex : Type :=
| Lit (s : string)              (* a run of literal characters *)
| Digits                        (* \d+, greedy *)
| Seq (r1 r2 : regex)           (* r1 r2 *)
| Alt (r1 r2 : regex)           (* r1|r2 *)
| Opt (r : regex)               (* (?:r)?, greedy *)
| Group (n : nat) (r : regex).  (* (r), the capturing group number n *)

(** \d *)
Definition is_digit (c : ascii) : bool :=
  match c with
  | "0" | "1" | "2" | "3" | "4" | "5" | "6" | "7" | "8" | "9" => true
  | _ => false
  end%char.

Fixpoint strip_prefix (p s : string) : option string :=
  match p with
  | EmptyString => Some s
  | String a p' =>
      match s with
      | String b s' => if Ascii.eqb a b then strip_prefix p' s' else None
      | EmptyString => None
      end
  end.

(** The match array under construction: index 0 is the whole match, index n
    the text of group n, [None] for [undefined]. *)
Abbreviation captures := (list (option string)).

Section Backtracking.
Context {A : Type}.

(** \d* from [s]: the longest run first, then shorter ones on failure of
    the continuation. *)
Fixpoint digits_star (s : string) (k : string → option A) : option A :=
  match s with
  | String c s' =>
      if is_digit c then
        match digits_star s' k with
        | Some r => Some r
        | None => k s
        end
      else k s
  | EmptyString => k s
  end.

Definition digits_plus (s : string) (k : string → option A) : option A :=
  match s with
  | String c s' => if is_digit c then digits_star s' k else None
  | EmptyString => None
  end.
End Backtracking.

(** The text consumed between the input [s] and its suffix [s']. *)
Definition consumed (s s' : string) : string :=
  substring 0 (String.length s - String.length s') s.

(** [run r s c k]: match [r] at the front of [s] with captures [c]; on
    success hand the rest of the input and the new captures to [k]; when [k]
    fails, backtrack into [r]. *)
Fixpoint run (r : regex) (s : string) (c : captures)
    (k : string → captures → option captures) : option captures :=
  match r with
  | Lit l =>
      match strip_prefix l s with
      | Some s' => k s' c
      | None => None
      end
  | Digits => digits_plus s (λ s', k s' c)
  | Seq r1 r2 => run r1 s c (λ s' c', run r2 s' c' k)
  | Alt r1 r2 =>
      match run r1 s c k with
      | Some m => Some m
      | None => run r2 s c k
      end
  | Opt r1 =>
      match run r1 s c k with
      | Some m => Some m
      | None => k s c
      end
  | Group n r1 => run r1 s c (λ s' c', k s' (<[n := Some (consumed s s')]> c'))
  end.

Fixpoint groups (r : regex) : nat :=
  match r with
  | Lit _ | Digits => 0
  | Seq r1 r2 | Alt r1 r2 => groups r1 + groups r2
  | Opt r1 => groups r1
  | Group _ r1 => S (groups r1)
  end.

(** [/^r$/.exec(s)]: the match array, or [None] for [null]. *)
Definition exec (r : regex) (s : string) : option captures :=
  run r s (replicate (S (groups r)) None)
    (λ s' c, match s' with
             | EmptyString => Some (<[0%nat := Some s]> c)
             | _ => None
             end).

(** \d+(?:\.(\d+))? with the inner group numbered [n] *)
Definition version_re (n : nat) : regex :=
  Seq Digits (Opt (Seq (Lit ".") (Group n Digits))).

Definition node_re : regex :=          (* /^(async-)node(\d+(?:\.(\d+))?)$/ *)
  Seq (Group 1 (Lit "async-")) (Seq (Lit "node") (Group 2 (version_re 3))).
Definition web_re : regex :=           (* /^web$/ *)
  Lit "web".
Definition webworker_re : regex :=     (* /^webworker$/ *)
  Lit "webworker".
Definition electron_main_re : regex := (* /^electron(\d+(?:\.(\d+))?)-main$/ *)
  Seq (Lit "electron") (Seq (Group 1 (version_re 2)) (Lit "-main")).
Definition electron_preload_re : regex :=
                     (* /^electron(\d+(?:\.(\d+))?)-(?:preload|renderer)$/ *)
  Seq (Lit "electron")
      (Seq (Group 1 (version_re 2))
           (Seq (Lit "-") (Alt (Lit "preload") (Lit "renderer")))).
Definition nwjs_re : regex :=     (* /^(?:nwjs|node-webkit)(\d+(?:\.(\d+))?)$/ *)
  Seq (Alt (Lit "nwjs") (Lit "node-webkit")) (Group 1 (version_re 2)).
Definition es_re : regex :=            (* /^es(\d+)$/ *)
  Seq (Lit "es") (Group 1 Digits).

(** ** Numbers

    A JavaScript Number is a binary64 value.  A finite one is kept as the
    pair of an integer and a power of two, [Fin m e] standing for m * 2^e. *)

Inductive number : Type :=
| Fin (m e : Z)
| PInf
| NInf
| NaN.

(** A numeric literal of the source such as [12] or [2009]. *)
Definition int (z : Z) : number := Fin z 0.

Definition fin_compare (m1 e1 m2 e2 : Z) : comparison :=
  let e := Z.min e1 e2 in
  (m1 * 2 ^ (e1 - e)) ?= (m2 * 2 ^ (e2 - e)).

(** The order of two numbers; [None] when one of them is NaN. *)
Definition num_compare (x y : number) : option comparison :=
  match x, y with
  | NaN, _ | _, NaN => None
  | Fin m1 e1, Fin m2 e2 => Some (fin_compare m1 e1 m2 e2)
  | PInf, PInf | NInf, NInf => Some Eq
  | PInf, _ | _, NInf => Some Gt
  | NInf, _ | _, PInf => Some Lt
  end.

(** [x > y], [x >= y] and [x === y] on numbers *)
Definition num_gt (x y : number) : bool :=
  match num_compare x y with Some Gt => true | _ => false end.
Definition num_ge (x y : number) : bool :=
  match num_compare x y with Some Gt | Some Eq => true | _ => false end.
Definition num_eq (x y : number) : bool :=
  match num_compare x y with Some Eq => true | _ => false end.

(** The e with 2^e <= n/d < 2^(e+1), for positive n and d. *)
Definition ilog2_frac (n d : Z) : Z :=
  let e := Z.log2 n - Z.log2 d in
  if d * 2 ^ Z.max e 0 <=? n * 2 ^ Z.max (- e) 0 then e else e - 1.

(** The integer nearest to p/q, ties to the even one (p >= 0, q > 0). *)
Definition div_half_even (p q : Z) : Z :=
  let f := p / q in
  match 2 * (p mod q) ?= q with
  | Lt => f
  | Gt => f + 1
  | Eq => if Z.even f then f else f + 1
  end.

(** Round the positive rational n/d to binary64: 53 significant bits, the
    last place no finer than 2^-1074, overflow to Infinity from 2^1024. *)
Definition round_pos (n d : Z) : number :=
  let e := ilog2_frac n d in
  let s := Z.max (e - 52) (-1074) in
  let m := div_half_even (n * 2 ^ Z.max (- s) 0) (d * 2 ^ Z.max s 0) in
  if 2 ^ 1024 <=? m * 2 ^ Z.max s 0 then PInf else Fin m s.

Definition num_opp (x : number) : number :=
  match x with
  | Fin m e => Fin (- m) e
  | PInf => NInf
  | NInf => PInf
  | NaN => NaN
  end.

(** Round the rational n/d (d > 0) to binary64. *)
Definition round64 (n d : Z) : number :=
  match n with
  | 0 => Fin 0 0
  | Zpos _ => round_pos n d
  | Zneg _ => num_opp (round_pos (- n) d)
  end.

(** [x - y] *)
Definition num_sub (x y : number) : number :=
  match x, y with
  | NaN, _ | _, NaN => NaN
  | Fin m1 e1, Fin m2 e2 =>
      let e := Z.min e1 e2 in
      let m := m1 * 2 ^ (e1 - e) - m2 * 2 ^ (e2 - e) in
      round64 (m * 2 ^ Z.max e 0) (2 ^ Z.max (- e) 0)
  | PInf, PInf | NInf, NInf => NaN
  | PInf, _ | _, NInf => PInf
  | NInf, _ | _, PInf => NInf
  end.

Definition digit_value (c : ascii) : Z := Z.of_N (N_of_ascii c) - 48.

(** The decimal digits of [s] appended to the integer [acc]; [None] when [s]
    holds something else than digits. *)
Fixpoint read_digits (s : string) (acc : Z) : option Z :=
  match s with
  | EmptyString => Some acc
  | String c s' =>
      if is_digit c then read_digits s' (10 * acc + digit_value c) else None
  end.

(** The text before the first "." of [s], and the text after it if any. *)
Fixpoint split_point (s : string) : string * option string :=
  match s with
  | EmptyString => (EmptyString, None)
  | String c s' =>
      if Ascii.eqb c "."
      then (EmptyString, Some s')
      else let '(i, f) := split_point s' in (String c i, f)
  end.

(** [+s] for a string [s]: the empty string is 0; decimal digits with an
    optional fraction are rounded to the nearest double.  The other literal
    forms of StringToNumber (surrounding white space, a sign, an exponent,
    Infinity, 0x/0o/0b) never reach [to_number] here, since the patterns
    only capture digits and a point; they are not modelled and read as NaN. *)
Definition to_number (s : string) : number :=
  match s with
  | EmptyString => Fin 0 0
  | _ =>
      match split_point s with
      | (i, None) =>
          match read_digits i 0 with
          | Some n => round64 n 1
          | None => NaN
          end
      | (EmptyString, Some EmptyString) => NaN
      | (i, Some f) =>
          match read_digits (i +:+ f) 0 with
          | Some n => round64 n (10 ^ Z.of_nat (String.length f))
          | None => NaN
          end
      end
  end.

(** A captured group as handed to a handler: a string or [undefined]. *)
Abbreviation arg := (option string).

(** ToBoolean of a string or [undefined] *)
Definition arg_truthy (a : arg) : bool :=
  match a with
  | Some (String _ _) => true
  | _ => false
  end.

(** [+a] *)
Definition unary_plus (a : arg) : number :=
  match a with
  | Some s => to_number s
  | None => NaN
  end.

(** ** [versionDependent]

    The arguments are groups of a match: strings or [undefined]. *)

Definition versionDependent (major minor : arg)
    : number → option number → value :=
  if negb (arg_truthy major) then λ _ _, VUndefined
  else
    let major := unary_plus major in
    let minor := if arg_truthy minor then unary_plus minor else int 0 in
    λ vMajor vMinor,
      let vMinor := default (int 0) vMinor in
      of_bool (num_gt major vMajor
               || (num_eq major vMajor && num_ge minor vMinor)).

(** ** [TARGETS] *)

(** The n-th parameter of a handler called as [handler(...args)]. *)
Definition param (args : list arg) (n : nat) : arg := args !! n ≫= id.

(** [!a] as a flag *)
Definition not_arg (a : arg) : value := of_bool (negb (arg_truthy a)).

(** [v >= 6] as a flag *)
Definition at_least (v : number) (z : Z) : value := of_bool (num_ge v (int z)).

Definition node_handler (args : list arg) : obj :=
  let asyncFlag := param args 0 in
  let major := param args 1 in
  let minor := param args 2 in
  let v := versionDependent major minor in
  list_to_map [
    ("node", VTrue);
    ("electronMain", VFalse);
    ("electronPreload", VFalse);
    ("nwjs", VFalse);
    ("web", VFalse);

    ("require", not_arg asyncFlag);
    ("global", VTrue);
    ("document", VFalse);
    ("fetchWasm", VFalse);
    ("importScripts", VFalse);
    ("importScriptsInWorker", VFalse);

    ("globalThis", v (int 12) None);
    ("const", v (int 6) None);
    ("arrowFunctions", v (int 6) None);
    ("forOf", v (int 5) None);
    ("destructuring", v (int 6) None);
    ("bigInitLiteral", v (int 10) (Some (int 4)));
    ("import", v (int 12) (Some (int 17)));
    ("module", v (int 12) (Some (int 17)))
  ].

Definition web_handler (args : list arg) : obj :=
  list_to_map [
    ("web", VTrue);
    ("node", VFalse);
    ("electronMain", VFalse);
    ("electronPreload", VFalse);
    ("nwjs", VFalse);

    ("document", VTrue);
    ("importScriptsInWorker", VTrue);
    ("fetchWasm", VTrue);
    ("importScripts", VFalse);
    ("require", VFalse);
    ("global", VFalse)
  ].

Definition webworker_handler (args : list arg) : obj :=
  list_to_map [
    ("web", VTrue);
    ("node", VFalse);
    ("electronMain", VFalse);
    ("electronPreload", VFalse);
    ("nwjs", VFalse);

    ("importScripts", VTrue);
    ("importScriptsInWorker", VTrue);
    ("fetchWasm", VTrue);
    ("require", VFalse);
    ("document", VFalse);
    ("global", VFalse)
  ].

Definition electron_main_handler (args : list arg) : obj :=
  let major := param args 0 in
  let minor := param args 1 in
  let v := versionDependent major minor in
  list_to_map [
    ("node", VTrue);
    ("electronMain", VTrue);
    ("electronPreload", VFalse);
    ("web", VFalse);
    ("nwjs", VFalse);

    ("global", VTrue);
    ("document", VFalse);
    ("fetchWasm", VFalse);
    ("importScripts", VFalse);
    ("importScriptsInWorker", VFalse);
    ("require", VFalse);

    ("globalThis", v (int 5) None);
    ("const", v (int 1) (Some (int 1)));
    ("arrowFunctions", v (int 1) (Some (int 1)));
    ("forOf", v (int 0) (Some (int 36)));
    ("destructuring", v (int 1) (Some (int 1)));
    ("bigInitLiteral", v (int 4) None);
    ("import", v (int 11) None);
    ("module", v (int 11) None)
  ].

Definition electron_preload_handler (args : list arg) : obj :=
  let major := param args 0 in
  let minor := param args 1 in
  let v := versionDependent major minor in
  list_to_map [
    ("node", VTrue);
    ("web", VTrue);
    ("electronPreload", VTrue);
    ("electronMain", VFalse);
    ("nwjs", VFalse);

    ("global", VTrue);
    ("require", VFalse);
    ("importScriptsInWorker", VFalse);
    ("importScripts", VFalse);
    ("fetchWasm", VFalse);
    ("document", VFalse);

    ("globalThis", v (int 5) None);
    ("const", v (int 1) (Some (int 1)));
    ("arrowFunctions", v (int 1) (Some (int 1)));
    ("forOf", v (int 0) (Some (int 36)));
    ("destructuring", v (int 1) (Some (int 1)));
    ("bigInitLiteral", v (int 4) None);
    ("import", v (int 11) None);
    ("module", v (int 11) None)
  ].

Definition nwjs_handler (args : list arg) : obj :=
  let major := param args 0 in
  let minor := param args 1 in
  let v := versionDependent major minor in
  list_to_map [
    ("node", VTrue);
    ("web", VTrue);
    ("nwjs", VTrue);
    ("electronMain", VFalse);
    ("electronPreload", VFalse);

    ("global", VTrue);
    ("document", VFalse);
    ("importScriptsInWorker", VFalse);
    ("fetchWasm", VFalse);
    ("importScripts", VFalse);
    ("require", VFalse);

    ("globalThis", v (int 0) (Some (int 43)));
    ("const", v (int 0) (Some (int 15)));
    ("arrowFunctions", v (int 0) (Some (int 15)));
    ("forOf", v (int 0) (Some (int 13)));
    ("destructuring", v (int 0) (Some (int 15)));
    ("bigInitLiteral", v (int 0) (Some (int 32)));
    ("import", v (int 0) (Some (int 43)));
    ("module", v (int 0) (Some (int 43)))
  ].

Definition es_handler (args : list arg) : obj :=
  let version := param args 0 in
  let v := unary_plus version in
  let v := if num_gt v (int 1000) then num_sub v (int 2009) else v in
  list_to_map [
    ("globalThis", at_least v 6);
    ("const", at_least v 6);
    ("arrowFunctions", at_least v 6);
    ("forOf", at_least v 6);
    ("destructuring", at_least v 6);
    ("bigInitLiteral", at_least v 6);
    ("import", at_least v 6);
    ("module", at_least v 6)
  ].

(** A row of the table: [name, description, regExp, handler]. *)
Record target_entry : Type := Entry {
  name : string;
  description : string;
  regExp : regex;
  handler : list arg → obj
}.

Definition TARGETS : list target_entry := [
  Entry "[async-]node[X[.Y]]"
        "Node.js in version X.Y. The 'async-' prefix will load chunks asynchronously via 'fs' and 'vm' instead of 'require()'. Examples: node14.5, async-node10."
        node_re node_handler;
  Entry "web"
        "Web browser."
        web_re web_handler;
  Entry "webworker"
        "Web Worker, SharedWorker or Service Worker."
        webworker_re webworker_handler;
  Entry "electron[X[.Y]]-main"
        "Electron in version X.Y. Script is running in main context."
        electron_main_re electron_main_handler;
  Entry "electron[X[.Y]]-preload / electron[X[.Y]]-renderer"
        "Electron in version X.Y. Script is running in preload or renderer context."
        electron_preload_re electron_preload_handler;
  Entry "nwjs[X[.Y]] / node-webkit[X[.Y]]"
        "NW.js in version X.Y."
        nwjs_re nwjs_handler;
  Entry "esX"
        "EcmaScript in this version. Examples: es5, es2020."
        es_re es_handler
].

(** ** [getTargetProperties] *)

(** The outcome of a call: a returned value or a thrown [Error(msg)]. *)
Inductive completion (A : Type) : Type :=
| Return (a : A)
| Throw (msg : string).
Arguments Return {A} a.
Arguments Throw {A} msg.

(** ToBoolean of an object: every object is truthy. *)
Definition object_truthy (o : obj) : bool := true.

(** The [for ... of TARGETS] loop; [None] when it falls through. *)
Fixpoint scan (targets : list target_entry) (target : string) : option obj :=
  match targets with
  | [] => None
  | t :: rest =>
      match exec (regExp t) target with
      | Some match_ =>
          let args := tail match_ in
          let result := handler t args in
          if object_truthy result then Some result else scan rest target
      | None => scan rest target
      end
  end.

Definition newline : string := String "010" EmptyString.

(** One element of the [TARGETS.map(...)] of the message; the elements are
    joined with [newline] by [String.concat], the library's [join]. *)
Definition supported_line (t : target_entry) : string :=
  "* " +:+ name t +:+ ": " +:+ description t.

Definition unknown_target_message (target : string) : string :=
  "Unknown target '" +:+ target +:+
  "'. The following targets are supported:" +:+ newline +:+
  String.concat newline (supported_line <$> TARGETS).

Definition getTargetProperties (target : string) : completion obj :=
  match scan TARGETS target with
  | Some result => Return result
  | None => Throw (unknown_target_message target)
  end.

(** ** [mergeTargetProperties] *)

(** The first two loops: the set of the keys of all the objects.  (A [Set]
    iterates in insertion order; every key is merged on its own, so the
    order does not show in the result.) *)
Definition collect_keys (targetProperties : list obj) : gset string :=
  foldl (λ keys tp, foldl (λ keys key, keys ∪ {[ key ]}) keys (Object_keys tp))
        ∅ targetProperties.

(** The inner loop over [targetProperties] for one key, started with
    [merged]; a [break] returns at once. *)
Fixpoint merge_key (any : bool) (key : string) (targetProperties : list obj)
    (merged : value) : value :=
  match targetProperties with
  | [] => merged
  | tp :: rest =>
      let value := get tp key in
      if any then
        if is_true value then VTrue
        else merge_key any key rest merged
      else
        if is_false value then VFalse
        else if is_undefined value && truthy value
             then merge_key any key rest VUndefined
             else merge_key any key rest merged
  end.

Definition mergeTargetProperties (targetProperties : list obj) (any : bool)
    : obj :=
  let keys := collect_keys targetProperties in
  foldl (λ result key,
           <[key := merge_key any key targetProperties (of_bool (negb any))]>
             result)
        ∅ (elements keys).

(** ** [getTargetsProperties] *)

(** [targets.map(f)] for an [f] that may throw: the first throw ends the
    call. *)
Fixpoint map_throwing {A B : Type} (f : A → completion B) (l : list A)
    : completion (list B) :=
  match l with
  | [] => Return []
  | x :: rest =>
      match f x with
      | Throw msg => Throw msg
      | Return y =>
          match map_throwing f rest with
          | Throw msg => Throw msg
          | Return ys => Return (y :: ys)
          end
      end
  end.

Definition getTargetsProperties (targets : list string) : completion obj :=
  match map_throwing getTargetProperties targets with
  | Throw msg => Throw msg
  | Return tps => Return (mergeTargetProperties tps false)
  end.

(** * Vocabulary of the statements *)

(** [s] holds digits only. *)
Definition all_digits (s : string) : bool :=
  forallb is_digit (list_ascii_of_string s).

(** [matches r x c c']: the pattern [r] can consume the text [x], turning the
    captures [c] into [c']. *)
Inductive matches : regex → string → captures → captures → Prop :=
| M_Lit l c :
    matches (Lit l) l c c
| M_Digits ds c :
    ds ≠ "" → all_digits ds = true → matches Digits ds c c
| M_Seq r1 r2 x y c c1 c2 :
    matches r1 x c c1 → matches r2 y c1 c2 →
    matches (Seq r1 r2) (x +:+ y) c c2
| M_Alt_l r1 r2 x c c' :
    matches r1 x c c' → matches (Alt r1 r2) x c c'
| M_Alt_r r1 r2 x c c' :
    matches r2 x c c' → matches (Alt r1 r2) x c c'
| M_Opt_some r x c c' :
    matches r x c c' → matches (Opt r) x c c'
| M_Opt_none r c :
    matches (Opt r) "" c c
| M_Group n r x c c' :
    matches r x c c' → matches (Group n r) x c (<[n := Some x]> c').

(** Every key of the object holds a boolean. *)
Definition all_boolean (o : obj) : Prop :=
  ∀ key v, o !! key = Some v → v = VTrue ∨ v = VFalse.

(** [sub] occurs in [s]. *)
Definition contains (sub s : string) : Prop :=
  ∃ pre post, s = pre +:+ sub +:+ post.

(** The keys of [EcmaTargetProperties], [PlatformTargetProperties] and
    [ApiTargetProperties], as the type definitions spell them. *)
Definition syntax_flags : list string :=
  ["globalThis"; "bigInitLiteral"; "const"; "arrowFunctions"; "forOf";
   "destructuring"; "import"; "module"].
Definition platform_flags : list string :=
  ["web"; "node"; "nwjs"; "electronMain"; "electronPreload"].
Definition api_flags : list string :=
  ["require"; "document"; "importScripts"; "importScriptsInWorker";
   "fetchWasm"; "global"].

(** A non-empty run of digits. *)
Definition digits (ds : string) : Prop := ds ≠ "" ∧ all_digits ds = true.

(** The text X or X.Y of a version. *)
Definition version_text (major : string) (minor : option string) : string :=
  major +:+ match minor with Some m => "." +:+ m | None => "" end.

Definition is_version (major : string) (minor : option string) : Prop :=
  digits major ∧ match minor with Some m => digits m | None => True end.

(** [resolves target result]: the targets that are accepted, each with the
    object it yields.  The handlers of the versioned families receive the
    whole text X.Y as their [major] and Y as their [minor]. *)
Inductive resolves : string → obj → Prop :=
| R_node major minor :
    is_version major minor →
    resolves ("async-node" +:+ version_text major minor)
      (node_handler [Some "async-"; Some (version_text major minor); minor])
| R_web :
    resolves "web" (web_handler [])
| R_webworker :
    resolves "webworker" (webworker_handler [])
| R_electron_main major minor :
    is_version major minor →
    resolves ("electron" +:+ version_text major minor +:+ "-main")
      (electron_main_handler [Some (version_text major minor); minor])
| R_electron_preload major minor context :
    is_version major minor →
    context = "preload" ∨ context = "renderer" →
    resolves ("electron" +:+ version_text major minor +:+ "-" +:+ context)
      (electron_preload_handler [Some (version_text major minor); minor])
| R_nwjs family major minor :
    is_version major minor →
    family = "nwjs" ∨ family = "node-webkit" →
    resolves (family +:+ version_text major minor)
      (nwjs_handler [Some (version_text major minor); minor])
| R_es version :
    digits version →
    resolves ("es" +:+ version) (es_handler [Some version]).

(** The longest run of digits at the front of [s], and the rest. *)
Fixpoint span_digits (s : string) : string * string :=
  match s with
  | String c s' =>
      if is_digit c
      then let '(a, b) := span_digits s' in (String c a, b)
      else (EmptyString, s)
  | EmptyString => (EmptyString, EmptyString)
  end.

(** [t] does not go on a version: it is empty or starts with a character
    that is neither a digit nor a point. *)
Definition ends_version (t : string) : Prop :=
  match t with
  | String c _ => is_digit c = false ∧ c ≠ "."%char
  | EmptyString => True
  end.

(** The lexicographic order of two versions (major, minor), as the
    comparator of [versionDependent] computes it. *)
Definition at_least_version (major minor vMajor vMinor : number) : bool :=
  num_gt major vMajor || (num_eq major vMajor && num_ge minor vMinor).

(** The minor that [versionDependent] compares: 0 when none is given. *)
Definition requested_minor (minor : arg) : number :=
  if arg_truthy minor then unary_plus minor else int 0.

(** The first pair of [l] with the key [key]: what [list_to_map l] holds. *)
Fixpoint assoc (l : list (string * value)) (key : string) : option value :=
  match l with
  | [] => None
  | (k, v) :: rest => if String.eqb k key then Some v else assoc rest key
  end.

(** The object of a target that resolves, [∅] for one that does not. *)
Definition resolved (target : string) : obj :=
  match getTargetProperties target with
  | Return result => result
  | Throw _ => ∅
  end.

(** * Properties *)

(** ** Strings *)

Section Strings.
Implicit Types (a b s p x : string) (c : ascii).

Lemma app_cons c a b : String c a +:+ b = String c (a +:+ b).
Proof. reflexivity. Qed.

Lemma app_nil_l a : "" +:+ a = a.
Proof. reflexivity. Qed.

Lemma app_nil_r a : a +:+ "" = a.
Proof. induction a as [|c a IH]; [done |]. by rewrite app_cons, IH. Qed.

Lemma app_assoc a b s : (a +:+ b) +:+ s = a +:+ (b +:+ s).
Proof.
  induction a as [|c a IH]; [done |]. by rewrite !app_cons, IH.
Qed.

Lemma length_app a b :
  String.length (a +:+ b) = (String.length a + String.length b)%nat.
Proof.
  induction a as [|c a IH]; [done |]. rewrite app_cons. simpl. by rewrite IH.
Qed.

Lemma substring_app a b : substring 0 (String.length a) (a +:+ b) = a.
Proof.
  induction a as [|c a IH]; [by destruct b |].
  rewrite app_cons. simpl. by rewrite IH.
Qed.

Lemma consumed_app a b : consumed (a +:+ b) b = a.
Proof.
  unfold consumed. rewrite length_app.
  replace (String.length a + String.length b - String.length b)%nat
    with (String.length a) by lia.
  apply substring_app.
Qed.

Lemma app_not_nil a b : a ≠ "" → a +:+ b ≠ "".
Proof. by destruct a. Qed.

Lemma strip_prefix_Some p s s' : strip_prefix p s = Some s' ↔ s = p +:+ s'.
Proof.
  revert s. induction p as [|c p IH]; intros s; simpl.
  - rewrite app_nil_l. naive_solver.
  - rewrite app_cons. destruct s as [|c' s]; [naive_solver |].
    destruct (Ascii.eqb_spec c c') as [->|Hne].
    + rewrite IH. naive_solver.
    + naive_solver.
Qed.
End Strings.

(** ** What a pattern matches *)

Section Soundness.
Context {A : Type}.
Implicit Types (k : string → option A).

Lemma digits_star_sound s k m :
  digits_star s k = Some m →
  ∃ ds s', s = ds +:+ s' ∧ all_digits ds = true ∧ k s' = Some m.
Proof.
  induction s as [|c s IH]; simpl.
  - intros Hk. by exists "", "".
  - destruct (is_digit c) eqn:Hc; [| intros Hk; by exists "", (String c s)].
    destruct (digits_star s k) as [m'|] eqn:Hs.
    + intros [= ->]. destruct (IH eq_refl) as (ds & s' & -> & Hds & Hk).
      exists (String c ds), s'. repeat split; [| done].
      unfold all_digits in *. simpl. by rewrite Hc.
    + intros Hk. by exists "", (String c s).
Qed.

Lemma digits_plus_sound s k m :
  digits_plus s k = Some m →
  ∃ ds s', s = ds +:+ s' ∧ ds ≠ "" ∧ all_digits ds = true ∧ k s' = Some m.
Proof.
  destruct s as [|c s]; simpl; [done |].
  destruct (is_digit c) eqn:Hc; [| done].
  intros (ds & s' & -> & Hds & Hk)%digits_star_sound.
  exists (String c ds), s'. repeat split; [done | | done].
  unfold all_digits in *. simpl. by rewrite Hc.
Qed.
End Soundness.

(** Every success of the backtracking matcher is a match of the pattern. *)
Lemma run_sound r s c k m :
  run r s c k = Some m →
  ∃ x s' c', s = x +:+ s' ∧ matches r x c c' ∧ k s' c' = Some m.
Proof.
  revert s c k. induction r as [l| |r1 IH1 r2 IH2|r1 IH1 r2 IH2|r IH|n r IH];
    intros s c k; simpl.
  - destruct (strip_prefix l s) as [s'|] eqn:Hl; [| done].
    apply strip_prefix_Some in Hl as ->. intros Hk.
    exists l, s', c. eauto using matches.
  - intros (ds & s' & -> & Hne & Hds & Hk)%digits_plus_sound.
    exists ds, s', c. eauto using matches.
  - intros (x & s1 & c1 & -> & H1 & (y & s2 & c2 & -> & H2 & Hk)%IH2)%IH1.
    exists (x +:+ y), s2, c2. rewrite app_assoc. eauto using matches.
  - destruct (run r1 s c k) as [m'|] eqn:H1.
    + intros [= ->]. apply IH1 in H1 as (x & s' & c' & -> & H1 & Hk).
      exists x, s', c'. eauto using matches.
    + intros (x & s' & c' & -> & H2 & Hk)%IH2.
      exists x, s', c'. eauto using matches.
  - destruct (run r s c k) as [m'|] eqn:H1.
    + intros [= ->]. apply IH in H1 as (x & s' & c' & -> & H1 & Hk).
      exists x, s', c'. eauto using matches.
    + intros Hk. exists "", s, c. eauto using matches.
  - intros (x & s' & c' & -> & H1 & Hk)%IH. rewrite consumed_app in Hk.
    exists x, s', (<[n := Some x]> c'). eauto using matches.
Qed.

(** A successful [exec] is a match of the whole input; the array holds the
    input at index 0. *)
Lemma exec_sound r s m :
  exec r s = Some m →
  ∃ c', matches r s (replicate (S (groups r)) None) c'
        ∧ m = <[0%nat := Some s]> c'.
Proof.
  unfold exec. intros (x & s' & c' & -> & Hm & Hk)%run_sound.
  destruct s'; [| done]. injection Hk as <-. rewrite app_nil_r.
  by exists c'.
Qed.

(** The match arrays of some targets. *)
Example exec_examples :
  exec node_re "async-node14.5"
  = Some [Some "async-node14.5"; Some "async-"; Some "14.5"; Some "5"] ∧
  exec node_re "async-node10"
  = Some [Some "async-node10"; Some "async-"; Some "10"; None] ∧
  exec node_re "async-node10." = None ∧
  exec electron_main_re "electron11-main"
  = Some [Some "electron11-main"; Some "11"; None] ∧
  exec electron_preload_re "electron11.03-renderer"
  = Some [Some "electron11.03-renderer"; Some "11.03"; Some "03"] ∧
  exec nwjs_re "node-webkit0.43"
  = Some [Some "node-webkit0.43"; Some "0.43"; Some "43"] ∧
  exec es_re "es2020" = Some [Some "es2020"; Some "2020"] ∧
  exec es_re "es" = None ∧
  exec web_re "webworker" = None ∧
  exec webworker_re "webworker" = Some [Some "webworker"].
Proof. repeat split; reflexivity. Qed.

(** ** The version captured by a pattern *)

Ltac invert_matches :=
  repeat match goal with
    | H : matches (Lit _) _ _ _ |- _ => inversion H; clear H; subst
    | H : matches Digits _ _ _ |- _ => inversion H; clear H; subst
    | H : matches (Seq _ _) _ _ _ |- _ => inversion H; clear H; subst
    | H : matches (Alt _ _) _ _ _ |- _ => inversion H; clear H; subst
    | H : matches (Opt _) _ _ _ |- _ => inversion H; clear H; subst
    | H : matches (Group _ _) _ _ _ |- _ => inversion H; clear H; subst
    end.

(** \d+(?:\.(\d+))? consumes at least one digit, and sets group [n] or
    leaves the captures alone. *)
Lemma matches_version n x c c' :
  matches (version_re n) x c c' →
  x ≠ "" ∧ (c' = c ∨ ∃ y, c' = <[n := Some y]> c).
Proof.
  unfold version_re. intros H. invert_matches.
  - split; [by apply app_not_nil | right; by eexists].
  - split; [by apply app_not_nil | by left].
Qed.

Lemma exec_node_re s m :
  exec node_re s = Some m →
  ∃ major minor,
    m = [Some s; Some "async-"; Some major; minor] ∧ major ≠ "".
Proof.
  intros (c' & H & ->)%exec_sound. unfold node_re in H.
  inversion H as [| |? ? x y ? c1 ? H1 H2| | | | |]; subst; clear H.
  inversion H2 as [| |? ? x' y' ? c2 ? H3 H4| | | | |]; subst; clear H2.
  inversion H4 as [| | | | | | |? ? ? ? c3 H5]; subst; clear H4.
  apply matches_version in H5 as [Hne Hc]. invert_matches.
  destruct Hc as [->|[minor ->]]; simpl; eauto.
Qed.

Lemma exec_electron_main_re s m :
  exec electron_main_re s = Some m →
  ∃ major minor, m = [Some s; Some major; minor] ∧ major ≠ "".
Proof.
  intros (c' & H & ->)%exec_sound. unfold electron_main_re in H.
  inversion H as [| |? ? x y ? c1 ? H1 H2| | | | |]; subst; clear H.
  inversion H2 as [| |? ? x' y' ? c2 ? H3 H4| | | | |]; subst; clear H2.
  inversion H3 as [| | | | | | |? ? ? ? c3 H5]; subst; clear H3.
  apply matches_version in H5 as [Hne Hc]. invert_matches.
  destruct Hc as [->|[minor ->]]; simpl; eauto.
Qed.

Lemma exec_electron_preload_re s m :
  exec electron_preload_re s = Some m →
  ∃ major minor, m = [Some s; Some major; minor] ∧ major ≠ "".
Proof.
  intros (c' & H & ->)%exec_sound. unfold electron_preload_re in H.
  inversion H as [| |? ? x y ? c1 ? H1 H2| | | | |]; subst; clear H.
  inversion H2 as [| |? ? x' y' ? c2 ? H3 H4| | | | |]; subst; clear H2.
  inversion H3 as [| | | | | | |? ? ? ? c3 H5]; subst; clear H3.
  apply matches_version in H5 as [Hne Hc].
  invert_matches; destruct Hc as [->|[minor ->]]; simpl; eauto.
Qed.

Lemma exec_nwjs_re s m :
  exec nwjs_re s = Some m →
  ∃ major minor, m = [Some s; Some major; minor] ∧ major ≠ "".
Proof.
  intros (c' & H & ->)%exec_sound. unfold nwjs_re in H.
  inversion H as [| |? ? x y ? c1 ? H1 H2| | | | |]; subst; clear H.
  inversion H2 as [| | | | | | |? ? ? ? c3 H5]; subst; clear H2.
  apply matches_version in H5 as [Hne Hc].
  invert_matches; destruct Hc as [->|[minor ->]]; simpl; eauto.
Qed.

(** ** Rounding to binary64 *)

Section Rounding.
Implicit Types (n d p q k c m e s z : Z).

Lemma fin_compare_int m e z :
  fin_compare m e z 0 = (m * 2 ^ Z.max e 0 ?= z * 2 ^ Z.max (- e) 0).
Proof.
  unfold fin_compare. destruct (Z.le_gt_cases e 0).
  - rewrite Z.min_l, Z.max_r, Z.max_l by lia.
    by replace (e - e) with 0 by lia; replace (0 - e) with (- e) by lia.
  - rewrite Z.min_r, Z.max_l, Z.max_r by lia.
    by replace (e - 0) with e by lia.
Qed.

Lemma div_half_even_lower p q k :
  0 < q → k * q ≤ p → k ≤ div_half_even p q.
Proof.
  intros Hq Hk. unfold div_half_even.
  assert (k ≤ p / q) by (apply Z.div_le_lower_bound; lia).
  destruct (_ ?= _); [destruct (Z.even _) |..]; lia.
Qed.

Lemma div_half_even_upper p q k :
  0 < q → p ≤ k * q → div_half_even p q ≤ k.
Proof.
  intros Hq Hk. unfold div_half_even.
  pose proof (Z.div_mod p q ltac:(lia)) as Hp.
  pose proof (Z.mod_pos_bound p q Hq) as Hr.
  assert (p mod q = 0 → p / q ≤ k) by nia.
  assert (0 < p mod q → p / q + 1 ≤ k) by nia.
  destruct (Z.compare_spec (2 * (p mod q)) q);
    [destruct (Z.even _) |..]; lia.
Qed.

(** For a rational n/d of at least 1, [ilog2_frac] is the position of its
    leading bit. *)
Lemma ilog2_frac_spec n d :
  0 < d → d ≤ n →
  0 ≤ ilog2_frac n d ∧
  d * 2 ^ ilog2_frac n d ≤ n < 2 * (d * 2 ^ ilog2_frac n d).
Proof.
  intros Hd Hn. unfold ilog2_frac.
  pose proof (Z.log2_spec n ltac:(lia)) as [Hn1 Hn2].
  pose proof (Z.log2_spec d Hd) as [Hd1 Hd2].
  pose proof (Z.log2_nonneg d) as Hb.
  pose proof (Z.log2_le_mono d n Hn) as Hab.
  set (a := Z.log2 n) in *. set (b := Z.log2 d) in *.
  rewrite Z.max_l, Z.max_r by lia. rewrite Z.mul_1_r.
  assert (2 ^ a = 2 ^ b * 2 ^ (a - b)) as Ha.
  { rewrite <- Z.pow_add_r by lia. f_equal. lia. }
  assert (0 < 2 ^ (a - b)) by (apply Z.pow_pos_nonneg; lia).
  rewrite Z.pow_succ_r in Hn2, Hd2 by lia.
  destruct (Z.leb_spec (d * 2 ^ (a - b)) n) as [Hle|Hgt].
  - split; [lia |]. split; [done | nia].
  - assert (a - b ≠ 0) as Hne.
    { intros H0. rewrite H0 in Hgt. simpl in Hgt. lia. }
    assert (2 ^ (a - b) = 2 * 2 ^ (a - b - 1)) as Hp.
    { rewrite <- Z.pow_succ_r by lia. f_equal. lia. }
    assert (0 < 2 ^ (a - b - 1)) by (apply Z.pow_pos_nonneg; lia).
    split; [lia |]. split; nia.
Qed.

(** The double of a rational is no less than an integer below it ... *)
Lemma round_pos_lower n d c :
  0 < d → 1 ≤ c ≤ 2 ^ 53 → c * d ≤ n →
  round_pos n d = PInf
  ∨ ∃ m s, round_pos n d = Fin m s
           ∧ c * 2 ^ Z.max (- s) 0 ≤ m * 2 ^ Z.max s 0.
Proof.
  intros Hd Hc Hn. unfold round_pos.
  destruct (ilog2_frac_spec n d Hd ltac:(nia)) as (He & Hlo & Hhi).
  set (e := ilog2_frac n d) in *.
  rewrite (Z.max_l (e - 52)) by lia.
  destruct (_ <=? _); [by left | right].
  eexists _, _. split; [done |].
  destruct (Z.le_gt_cases e 52).
  - rewrite (Z.max_l (- (e - 52))), (Z.max_r (e - 52)) by lia.
    rewrite !Z.mul_1_r. apply div_half_even_lower; [done |].
    assert (0 < 2 ^ (- (e - 52))) by (apply Z.pow_pos_nonneg; lia). nia.
  - rewrite (Z.max_r (- (e - 52))), (Z.max_l (e - 52)) by lia.
    rewrite !Z.mul_1_r.
    assert (2 ^ e = 2 ^ 52 * 2 ^ (e - 52)) as Hp.
    { rewrite <- Z.pow_add_r by lia. f_equal. lia. }
    assert (2 ≤ 2 ^ (e - 52)).
    { change 2 with (2 ^ 1) at 1. apply Z.pow_le_mono_r; lia. }
    assert (2 ^ 52 ≤ div_half_even n (d * 2 ^ (e - 52))).
    { apply div_half_even_lower; [nia |]. rewrite Hp in Hlo. nia. }
    change (2 ^ 53) with (2 * 2 ^ 52) in Hc. nia.
Qed.

(** ... and no more than an integer above it; below 2^53 the last place
    is at most 1 and the result is finite. *)
Lemma round_pos_upper n d c :
  0 < d → d ≤ n → n ≤ c * d → c < 2 ^ 53 →
  ∃ m s, round_pos n d = Fin m s ∧ s ≤ 0 ∧ 0 ≤ m ≤ c * 2 ^ (- s).
Proof.
  intros Hd Hdn Hn Hc. unfold round_pos.
  destruct (ilog2_frac_spec n d Hd Hdn) as (He & Hlo & Hhi).
  set (e := ilog2_frac n d) in *.
  assert (e ≤ 52) as He52.
  { destruct (Z.le_gt_cases e 52) as [|Hgt]; [done |].
    assert (2 ^ 53 ≤ 2 ^ e) by (apply Z.pow_le_mono_r; lia). nia. }
  rewrite (Z.max_l (e - 52)) by lia.
  rewrite (Z.max_l (- (e - 52))), (Z.max_r (e - 52)) by lia.
  rewrite !Z.mul_1_r.
  assert (0 < 2 ^ (- (e - 52))) as Hpos by (apply Z.pow_pos_nonneg; lia).
  assert (2 ^ (- (e - 52)) ≤ 2 ^ 52) as Hp52
    by (apply Z.pow_le_mono_r; lia).
  set (m := div_half_even _ _).
  assert (0 ≤ m) by (apply div_half_even_lower; nia).
  assert (m ≤ c * 2 ^ (- (e - 52))) by (apply div_half_even_upper; nia).
  assert (2 ^ 53 * 2 ^ 52 < 2 ^ 1024) by done.
  destruct (Z.leb_spec (2 ^ 1024) m); [nia |].
  exists m, (e - 52). split_and!; [done | lia | done | done].
Qed.

(** An integer below 2^53 is a double. *)
Lemma round_pos_exact z d :
  0 < d → 1 ≤ z < 2 ^ 53 →
  ∃ s, round_pos (z * d) d = Fin (z * 2 ^ (- s)) s ∧ s ≤ 0.
Proof.
  intros Hd Hz.
  destruct (round_pos_upper (z * d) d z) as (m & s & Hr & Hs & Hm);
    [lia | nia | lia | lia |].
  destruct (round_pos_lower (z * d) d z) as [Hinf|(m' & s' & Hr' & Hm')];
    [lia | lia | lia | congruence |].
  rewrite Hr in Hr'. injection Hr' as <- <-.
  rewrite Z.max_l, Z.max_r, Z.mul_1_r in Hm' by lia.
  exists s. split; [| done]. rewrite Hr. f_equal. lia.
Qed.
End Rounding.

Section Comparing.
Implicit Types (n d c m s z k : Z).

Lemma num_compare_exact z s c :
  s ≤ 0 → num_compare (Fin (z * 2 ^ (- s)) s) (int c) = Some (z ?= c).
Proof.
  intros Hs. unfold int. cbn [num_compare]. rewrite fin_compare_int.
  rewrite Z.max_r, Z.max_l, Z.mul_1_r by lia.
  assert (0 < 2 ^ (- s)) by (apply Z.pow_pos_nonneg; lia). f_equal.
  destruct (Z.compare_spec z c), (Z.compare_spec (z * 2 ^ (- s))
                                                (c * 2 ^ (- s)));
    first [done | nia].
Qed.

(** An integer below 2^53, written as the fraction z*d/d, rounds to
    itself: it compares with the integers as z does. *)
Lemma round64_exact z d c :
  0 < d → - 2 ^ 53 < z < 2 ^ 53 →
  num_compare (round64 (z * d) d) (int c) = Some (z ?= c).
Proof.
  intros Hd Hz. unfold round64. destruct (z * d) as [|p|p] eqn:Hzd.
  - assert (z = 0) as -> by nia. unfold int. cbn [num_compare].
    rewrite fin_compare_int. simpl. by rewrite Z.mul_1_r.
  - destruct (round_pos_exact z d Hd ltac:(nia)) as (s & Hr & Hs).
    rewrite <- Hzd, Hr. by apply num_compare_exact.
  - destruct (round_pos_exact (- z) d Hd ltac:(nia)) as (s & Hr & Hs).
    replace (- Z.neg p) with (- z * d) by lia. rewrite Hr. cbn [num_opp].
    replace (- (- z * 2 ^ (- s))) with (z * 2 ^ (- s)) by lia.
    by apply num_compare_exact.
Qed.

(** The double of a rational that is at least the integer c >= 1 compares
    with the integers up to c as greater or equal. *)
Lemma round64_lower n d c c' :
  0 < d → 1 ≤ c ≤ 2 ^ 53 → c * d ≤ n → c' ≤ c →
  num_ge (round64 n d) (int c') = true
  ∧ (c' < c → num_gt (round64 n d) (int c') = true).
Proof.
  intros Hd Hc Hn Hc'. unfold round64. destruct n as [|p|p]; [nia | | nia].
  destruct (round_pos_lower (Z.pos p) d c Hd Hc Hn)
    as [->|(m & s & -> & Hm)]; [done |].
  unfold num_ge, num_gt, int. cbn [num_compare]. rewrite fin_compare_int.
  assert (0 < 2 ^ Z.max (- s) 0) by (apply Z.pow_pos_nonneg; lia).
  destruct (Z.compare_spec (m * 2 ^ Z.max s 0) (c' * 2 ^ Z.max (- s) 0));
    split; first [done | nia].
Qed.

(** [x - k] for a finite x and an integer literal k, before rounding. *)
Lemma num_sub_int m s k :
  num_sub (Fin m s) (int k)
  = round64 (m * 2 ^ Z.max s 0 - k * 2 ^ Z.max (- s) 0)
            (2 ^ Z.max (- s) 0).
Proof.
  unfold int. cbn [num_sub]. destruct (Z.le_gt_cases s 0).
  - rewrite Z.min_l, !(Z.max_r s), !(Z.max_l (- s)) by lia.
    replace (s - s) with 0 by lia. replace (0 - s) with (- s) by lia.
    f_equal. change (2 ^ 0) with 1. lia.
  - rewrite Z.min_r, !(Z.max_l s), !(Z.max_r (- s)), !(Z.max_r (- 0))
      by lia.
    replace (s - 0) with s by lia. f_equal. change (2 ^ (0 - 0)) with 1.
    change (2 ^ 0) with 1. lia.
Qed.
End Comparing.

(** Some doubles: 14.5 is 29/2; 0.1 is 0x1.999999999999ap-4; 2^53 + 1 is
    not a double and rounds to 2^53; 0.3 - 0.1 is not the double 0.2; the
    largest double is (2^53 - 1) * 2^971. *)
Example to_number_examples :
  num_eq (to_number "14.5") (Fin 29 (-1)) = true ∧
  to_number "0.1" = Fin 7205759403792794 (-56) ∧
  num_eq (to_number "9007199254740993") (int 9007199254740992) = true ∧
  num_eq (num_sub (to_number "0.3") (to_number "0.1")) (to_number "0.2")
  = false ∧
  num_sub (to_number "2020") (int 2009) = Fin 6192449487634432 (-49) ∧
  num_eq (num_sub (to_number "2020") (int 2009)) (int 11) = true ∧
  round64 ((2 ^ 53 - 1) * 2 ^ 971) 1 = Fin (2 ^ 53 - 1) 971 ∧
  round64 (2 ^ 1024) 1 = PInf ∧
  to_number "x" = NaN ∧
  num_ge (to_number "x") (int 0) = false.
Proof. repeat split; vm_compute; reflexivity. Qed.

(** ** Reading digits *)

Section Digits.
Implicit Types (ds : string) (acc v : Z) (c : ascii).

Lemma is_digit_value c : is_digit c = true → 0 ≤ digit_value c ≤ 9.
Proof.
  destruct c as [[] [] [] [] [] [] [] []]; try discriminate;
    intros _; vm_compute; split; discriminate.
Qed.

Lemma is_digit_not_point c : is_digit c = true → Ascii.eqb c "." = false.
Proof. destruct c as [[] [] [] [] [] [] [] []]; done. Qed.

Lemma read_digits_Some ds acc v :
  read_digits ds acc = Some v →
  all_digits ds = true ∧ (0 ≤ acc → 0 ≤ v).
Proof.
  revert acc. induction ds as [|c ds IH]; intros acc; simpl.
  - intros [= <-]. done.
  - destruct (is_digit c) eqn:Hc; [| done].
    intros [Hds Hv]%IH. unfold all_digits in *. simpl. rewrite Hc.
    split; [done |]. pose proof (is_digit_value c Hc). lia.
Qed.

Lemma split_point_digits ds :
  all_digits ds = true → split_point ds = (ds, None).
Proof.
  unfold all_digits. induction ds as [|c ds IH]; simpl; [done |].
  intros [Hc Hds]%andb_prop. rewrite (is_digit_not_point c Hc).
  by rewrite IH.
Qed.

(** [+ds] for a non-empty run of digits of value [v]. *)
Lemma to_number_digits ds v :
  ds ≠ "" → read_digits ds 0 = Some v → to_number ds = round64 v 1.
Proof.
  intros Hne Hv. destruct (read_digits_Some _ _ _ Hv) as [Hds _].
  unfold to_number. destruct ds; [done |].
  by rewrite (split_point_digits _ Hds), Hv.
Qed.

Lemma digits_star_all {A} ds (k : string → option A) m :
  all_digits ds = true → k "" = Some m → digits_star ds k = Some m.
Proof.
  unfold all_digits. induction ds as [|c ds IH]; simpl; [done |].
  intros [-> Hds]%andb_prop Hk. by rewrite IH.
Qed.

Lemma digits_plus_all {A} ds (k : string → option A) m :
  ds ≠ "" → all_digits ds = true → k "" = Some m →
  digits_plus ds k = Some m.
Proof.
  destruct ds as [|c ds]; [done |]. intros _. unfold all_digits. simpl.
  intros [-> Hds]%andb_prop Hk. by apply digits_star_all.
Qed.
End Digits.

(** ** The comparator of [versionDependent] *)

Lemma versionDependent_truthy major minor vMajor vMinor :
  arg_truthy major = true →
  versionDependent major minor vMajor vMinor
  = of_bool (num_gt (unary_plus major) vMajor
             || (num_eq (unary_plus major) vMajor
                 && num_ge (if arg_truthy minor then unary_plus minor
                            else int 0)
                           (default (int 0) vMinor))).
Proof. unfold versionDependent. by intros ->. Qed.

Lemma versionDependent_boolean major minor vMajor vMinor :
  major ≠ "" →
  versionDependent (Some major) minor vMajor vMinor ≠ VUndefined.
Proof.
  intros Hne. rewrite versionDependent_truthy by by destruct major.
  by destruct (_ || _).
Qed.

Lemma num_compare_int (a b : Z) : num_compare (int a) (int b) = Some (a ?= b).
Proof.
  unfold int. cbn [num_compare]. rewrite fin_compare_int. simpl.
  by rewrite !Z.mul_1_r.
Qed.

(** A run of digits of value below 2^53 compares with the integers as its
    value does. *)
Lemma to_number_digits_compare (ds : string) (v c : Z) :
  ds ≠ "" → read_digits ds 0 = Some v → v < 2 ^ 53 →
  num_compare (to_number ds) (int c) = Some (v ?= c).
Proof.
  intros Hne Hv Hlt. destruct (read_digits_Some _ _ _ Hv) as [_ Hpos].
  rewrite (to_number_digits ds v Hne Hv), <- (Z.mul_1_r v) at 1.
  apply round64_exact; lia.
Qed.

Section IntegerVersions.
Variables (major : string) (minor : arg) (M m : Z).
Hypothesis major_present : major ≠ "".
Hypothesis major_value : read_digits major 0 = Some M.
Hypothesis minor_value :
  match minor with
  | Some ds => read_digits ds 0 = Some m
  | None => m = 0
  end.
Hypothesis major_bound : M < 2 ^ 53.
Hypothesis minor_bound : m < 2 ^ 53.

Lemma requested_minor_compare (c : Z) :
  num_compare (if arg_truthy minor then unary_plus minor else int 0) (int c)
  = Some (m ?= c).
Proof using minor_value minor_bound.
  destruct minor as [[|a ds]|]; cbn [arg_truthy unary_plus].
  - injection minor_value as <-. apply num_compare_int.
  - by apply to_number_digits_compare.
  - rewrite minor_value. apply num_compare_int.
Qed.

(** On integer versions the comparator is the lexicographic comparison of
    (major, minor) with the baseline. *)
Lemma versionDependent_integers (vMajor : Z) (vMinor : option Z) :
  versionDependent (Some major) minor (int vMajor) (int <$> vMinor)
  = of_bool ((vMajor <? M) || ((M =? vMajor) && (default 0 vMinor <=? m))).
Proof using All.
  rewrite versionDependent_truthy by by destruct major.
  assert (default (int 0) (int <$> vMinor) = int (default 0 vMinor)) as ->
    by by destruct vMinor.
  unfold num_gt, num_eq, num_ge. rewrite requested_minor_compare.
  cbn [unary_plus]. rewrite to_number_digits_compare with (v := M) by done.
  f_equal.
  destruct (Z.compare_spec M vMajor), (Z.ltb_spec vMajor M),
    (Z.eqb_spec M vMajor), (Z.compare_spec m (default 0 vMinor)),
    (Z.leb_spec (default 0 vMinor) m); first [done | lia].
Qed.
End IntegerVersions.

(** C5. Without a requested major the comparator answers [undefined] for
    every baseline.  With one, it answers [true] when the requested major is
    greater than the baseline major, or equal to it with a requested minor
    at least the baseline minor, and [false] otherwise; a missing requested
    minor and a missing baseline minor count as 0.  On integer versions
    (below 2^53, where every integer is a double) this is the lexicographic
    comparison of the integers. *)
Theorem versionDependent_contract
    (minor : arg) (vMajor : number) (vMinor : option number) :
  versionDependent None minor vMajor vMinor = VUndefined ∧
  (∀ major, major ≠ "" →
     let requestedMajor := to_number major in
     let requestedMinor :=
       match minor with
       | Some (String _ _ as ds) => to_number ds
       | _ => int 0
       end in
     let baselineMinor :=
       match vMinor with Some b => b | None => int 0 end in
     let available :=
       num_gt requestedMajor vMajor = true
       ∨ (num_eq requestedMajor vMajor = true
          ∧ num_ge requestedMinor baselineMinor = true) in
     (available → versionDependent (Some major) minor vMajor vMinor = VTrue) ∧
     (¬ available →
        versionDependent (Some major) minor vMajor vMinor = VFalse)) ∧
  (∀ major M m baselineMajor baselineMinor,
     major ≠ "" → read_digits major 0 = Some M →
     match minor with
     | Some ds => read_digits ds 0 = Some m
     | None => m = 0
     end →
     M < 2 ^ 53 → m < 2 ^ 53 →
     vMajor = int baselineMajor → vMinor = int <$> baselineMinor →
     versionDependent (Some major) minor vMajor vMinor
     = of_bool ((baselineMajor <? M)
                || ((M =? baselineMajor)
                    && (default 0 baselineMinor <=? m)))).
Proof.
  split; [done |]. split.
  - intros major Hne. cbv zeta.
    rewrite versionDependent_truthy by by destruct major.
    cbn [unary_plus].
    assert ((if arg_truthy minor then unary_plus minor else int 0)
            = match minor with
              | Some (String _ _ as ds) => to_number ds
              | _ => int 0
              end) as -> by by destruct minor as [[]|].
    assert (default (int 0) vMinor
            = match vMinor with Some b => b | None => int 0 end) as ->
      by by destruct vMinor.
    destruct (num_gt _ _), (num_eq _ _), (num_ge _ _); simpl;
      split; first [done | intros []; by auto | intros [[=]|[[=] [=]]]].
  - intros major M m bM bm Hne HM Hm HMlt Hmlt -> ->.
    by apply versionDependent_integers.
Qed.

Lemma versionDependent_contract_witness :
  versionDependent (Some "12") (Some "17") (int 12) (Some (int 17)) = VTrue
  ∧ versionDependent (Some "12") (Some "5") (int 12) (Some (int 17))
    = VFalse.
Proof.
  split.
  - refine (proj1 (proj1 (proj2 (versionDependent_contract (Some "17")
                                   (int 12) (Some (int 17)))) "12" _) _).
    + discriminate.
    + right. split; vm_compute; reflexivity.
  - refine (proj2 (proj1 (proj2 (versionDependent_contract (Some "5")
                                   (int 12) (Some (int 17)))) "12" _) _).
    + discriminate.
    + intros [H|[_ H]]; vm_compute in H; discriminate.
Defined.

(** The instances of the spec's table. *)
Example versionDependent_examples :
  versionDependent (Some "14") None (int 12) None = VTrue ∧
  versionDependent (Some "12") (Some "17") (int 12) (Some (int 17)) = VTrue ∧
  versionDependent (Some "12") (Some "16") (int 12) (Some (int 17)) = VFalse ∧
  versionDependent (Some "10") None (int 10) (Some (int 4)) = VFalse ∧
  versionDependent (Some "0") (Some "36") (int 0) (Some (int 36)) = VTrue ∧
  versionDependent None None (int 12) None = VUndefined.
Proof. repeat split; vm_compute; reflexivity. Qed.

(** ** The node targets *)

(** A matched node target has the prefix, and [require] is [false]. *)
Lemma node_target_require (target : string) (m : captures) :
  exec node_re target = Some m →
  param (tail m) 0 = Some "async-"
  ∧ node_handler (tail m) !! "require" = Some VFalse.
Proof.
  intros (major & minor & -> & _)%exec_node_re. split; reflexivity.
Qed.

(** C1. "node14.5" lacks the prefix that [node_re] requires and is matched
    by no other pattern: the call throws instead of returning the flags of
    Node.js 14.5.  With the prefix the version flags are [true]. *)
Theorem node14_5_unknown :
  exec node_re "node14.5" = None ∧
  getTargetProperties "node14.5" = Throw (unknown_target_message "node14.5") ∧
  ∃ result,
    getTargetProperties "async-node14.5" = Return result ∧
    result !! "node" = Some VTrue ∧
    result !! "require" = Some VFalse ∧
    result !! "globalThis" = Some VTrue ∧
    result !! "import" = Some VTrue ∧
    result !! "module" = Some VTrue.
Proof.
  split; [reflexivity |]. split; [vm_compute; reflexivity |].
  eexists. split; [reflexivity |].
  repeat split; vm_compute; reflexivity.
Qed.

(** C3. A node target without a version, with or without the prefix, is
    matched by no pattern: the call throws. *)
Theorem node_without_version_unknown :
  exec node_re "node" = None ∧
  exec node_re "async-node" = None ∧
  getTargetProperties "node" = Throw (unknown_target_message "node") ∧
  getTargetProperties "async-node"
  = Throw (unknown_target_message "async-node").
Proof. repeat split; vm_compute; reflexivity. Qed.

(** C4. For "async-node12.5" the second group holds "12.5": [major] is the
    number 12.5, which is greater than 12, and [import] and [module] are
    [true] although 12.5 is before 12.17. *)
Theorem async_node12_5_import :
  exec node_re "async-node12.5"
  = Some [Some "async-node12.5"; Some "async-"; Some "12.5"; Some "5"] ∧
  num_gt (to_number "12.5") (int 12) = true ∧
  ∃ result,
    getTargetProperties "async-node12.5" = Return result ∧
    result !! "require" = Some VFalse ∧
    result !! "import" = Some VTrue ∧
    result !! "module" = Some VTrue.
Proof.
  split; [reflexivity |]. split; [vm_compute; reflexivity |].
  eexists. split; [reflexivity |].
  repeat split; vm_compute; reflexivity.
Qed.

(** Versions without a fraction are compared as intended: "async-node10"
    and "async-node12.0". *)
Example async_node10 :
  (∃ result,
     getTargetProperties "async-node10" = Return result ∧
     result !! "require" = Some VFalse ∧
     result !! "bigInitLiteral" = Some VFalse ∧
     result !! "import" = Some VFalse ∧
     result !! "module" = Some VFalse) ∧
  (∃ result,
     getTargetProperties "async-node12.0" = Return result ∧
     result !! "import" = Some VFalse ∧
     result !! "module" = Some VFalse).
Proof.
  split; eexists; (split; [reflexivity |]);
    repeat split; vm_compute; reflexivity.
Qed.

(** ** The [esX] targets *)

(** The comparison [v >= 6] of the [esX] handler, after the adjustment of
    years, agrees with the same computation on the integer [v]: the
    rounding of [+version] and of [v - 2009] does not change the outcome. *)
Lemma es_edition (v : Z) :
  0 ≤ v →
  num_ge (if num_gt (round64 v 1) (int 1000)
          then num_sub (round64 v 1) (int 2009)
          else round64 v 1) (int 6)
  = (6 <=? (if 1000 <? v then v - 2009 else v)).
Proof.
  intros Hv. assert (2 ^ 53 = 9007199254740992) as E53 by done.
  destruct (Z.lt_ge_cases v (2 ^ 53)) as [Hsmall|Hbig].
  - assert (∀ c, num_compare (round64 v 1) (int c) = Some (v ?= c)) as Hcmp.
    { intros c. rewrite <- (Z.mul_1_r v) at 1. apply round64_exact; lia. }
    unfold num_gt at 1. rewrite Hcmp.
    destruct (Z.ltb_spec 1000 v) as [Hgt|Hle].
    + rewrite (proj2 (Z.compare_gt_iff v 1000)) by lia.
      destruct (round_pos_exact v 1) as (s & Hr & Hs); [lia | lia |].
      rewrite Z.mul_1_r in Hr.
      replace (round64 v 1) with (round_pos v 1) by (by destruct v).
      rewrite Hr, num_sub_int. rewrite Z.max_r, Z.max_l, Z.mul_1_r by lia.
      replace (v * 2 ^ (- s) - 2009 * 2 ^ (- s))
        with ((v - 2009) * 2 ^ (- s)) by lia.
      unfold num_ge. rewrite round64_exact;
        [| apply Z.pow_pos_nonneg; lia | lia].
      destruct (Z.compare_spec (v - 2009) 6), (Z.leb_spec 6 (v - 2009));
        first [done | lia].
    + destruct (Z.compare_spec v 1000); try lia;
        unfold num_ge; rewrite Hcmp;
        destruct (Z.compare_spec v 6), (Z.leb_spec 6 v); first [done | lia].
  - assert (2015 ≤ 2 ^ 53) as H53 by done.
    destruct (round64_lower v 1 (2 ^ 53) 1000) as [_ ->];
      [lia | lia | lia | lia | | lia].
    rewrite (proj2 (Z.ltb_lt 1000 v)), (proj2 (Z.leb_le 6 (v - 2009))) by lia.
    replace (round64 v 1) with (round_pos v 1) by (destruct v; [lia | done..]).
    destruct (round_pos_lower v 1 (2 ^ 53)) as [->|(m & s & -> & Hm)];
      [lia | lia | lia | done |].
    rewrite num_sub_int.
    assert (0 < 2 ^ Z.max (- s) 0) by (apply Z.pow_pos_nonneg; lia).
    by apply (round64_lower _ _ 6 6); [| | lia |].
Qed.

Lemma consumed_nil (s : string) : consumed s "" = s.
Proof. rewrite <- (app_nil_r s) at 1. apply consumed_app. Qed.

Lemma exec_es_re (ds : string) :
  ds ≠ "" → all_digits ds = true →
  exec es_re ("es" +:+ ds) = Some [Some ("es" +:+ ds); Some ds].
Proof.
  intros Hne Hds. unfold exec, es_re. cbn [run groups].
  rewrite (proj2 (strip_prefix_Some "es" _ ds) eq_refl).
  apply digits_plus_all; [done | done |]. by rewrite consumed_nil.
Qed.

Ltac each_key H :=
  apply list_elem_of_In in H; simpl in H;
  repeat destruct H as [<-|H]; [..| destruct H].

(** For "es" followed by digits of value [v], the call returns an object
    without any platform or API key, in which every key of [syntax_flags]
    (as the code spells them: [bigInitLiteral]) is [true] exactly when the
    edition ([v - 2009] if [v > 1000], else [v]) is at least 6. *)
Lemma es_target (ds : string) (v : Z) :
  ds ≠ "" → read_digits ds 0 = Some v →
  ∃ result,
    getTargetProperties ("es" +:+ ds) = Return result ∧
    (∀ key, key ∈ syntax_flags →
       result !! key
       = Some (of_bool (6 <=? (if 1000 <? v then v - 2009 else v)))) ∧
    (∀ key, key ∈ platform_flags ++ api_flags → result !! key = None).
Proof.
  intros Hne Hv. destruct (read_digits_Some _ _ _ Hv) as [Hds Hpos].
  unfold getTargetProperties, TARGETS.
  cbn [scan regExp handler object_truthy].
  change (exec node_re ("es" +:+ ds)) with (@None captures).
  change (exec web_re ("es" +:+ ds)) with (@None captures).
  change (exec webworker_re ("es" +:+ ds)) with (@None captures).
  change (exec electron_main_re ("es" +:+ ds)) with (@None captures).
  change (exec electron_preload_re ("es" +:+ ds)) with (@None captures).
  change (exec nwjs_re ("es" +:+ ds)) with (@None captures).
  rewrite (exec_es_re ds Hne Hds). eexists. split; [done |].
  unfold es_handler, at_least. cbn [tail param lookup list_lookup mbind
    option_bind id unary_plus].
  rewrite (to_number_digits ds v Hne Hv), es_edition by lia.
  split; intros key Hkey; each_key Hkey; reflexivity.
Qed.

Lemma es_target_witness :
  ∃ result,
    getTargetProperties "es2020" = Return result ∧
    (∀ key, key ∈ syntax_flags → result !! key = Some VTrue) ∧
    (∀ key, key ∈ platform_flags ++ api_flags → result !! key = None).
Proof.
  refine (es_target "2020" 2020 _ _).
  - discriminate.
  - reflexivity.
Defined.

(** C9. The objects of "es2020" and "es5" have no key [bigIntLiteral]: the
    handler writes the flag of the big int literal syntax under the key
    [bigInitLiteral], as the type definition spells it.  That flag reads
    [undefined] for both targets, where the other seven syntax flags are
    [true] for "es2020" and [false] for "es5". *)
Theorem es_bigIntLiteral_missing :
  (∃ result,
     getTargetProperties "es2020" = Return result ∧
     result !! "bigIntLiteral" = None ∧
     get result "bigIntLiteral" = VUndefined ∧
     result !! "bigInitLiteral" = Some VTrue ∧
     ∀ key,
       key ∈ ["globalThis"; "const"; "arrowFunctions"; "forOf";
              "destructuring"; "import"; "module"] →
       result !! key = Some VTrue) ∧
  (∃ result,
     getTargetProperties "es5" = Return result ∧
     result !! "bigIntLiteral" = None ∧
     get result "bigIntLiteral" = VUndefined ∧
     result !! "bigInitLiteral" = Some VFalse ∧
     ∀ key,
       key ∈ ["globalThis"; "const"; "arrowFunctions"; "forOf";
              "destructuring"; "import"; "module"] →
       result !! key = Some VFalse).
Proof.
  split; eexists; (split; [reflexivity |]);
    (split; [vm_compute; reflexivity |]);
    (split; [vm_compute; reflexivity |]);
    (split; [vm_compute; reflexivity |]);
    intros key Hkey; each_key Hkey; vm_compute; reflexivity.
Qed.

(** The spec's instances: es2020 and es5. *)
Example es2020_es5 :
  getTargetProperties "es2020"
  = Return (list_to_map [
      ("globalThis", VTrue); ("const", VTrue); ("arrowFunctions", VTrue);
      ("forOf", VTrue); ("destructuring", VTrue); ("bigInitLiteral", VTrue);
      ("import", VTrue); ("module", VTrue)]) ∧
  getTargetProperties "es5"
  = Return (list_to_map [
      ("globalThis", VFalse); ("const", VFalse); ("arrowFunctions", VFalse);
      ("forOf", VFalse); ("destructuring", VFalse); ("bigInitLiteral", VFalse);
      ("import", VFalse); ("module", VFalse)]).
Proof. split; reflexivity. Qed.

(** ** The flags of a handler are booleans *)

Lemma list_to_map_boolean (l : list (string * value)) :
  Forall (λ kv, kv.2 ≠ VUndefined) l → all_boolean (list_to_map l).
Proof.
  intros Hl key v Hkey%elem_of_list_to_map_2.
  rewrite Forall_forall in Hl. specialize (Hl _ Hkey). simpl in Hl.
  destruct v; auto. done.
Qed.

Lemma of_bool_boolean b : of_bool b ≠ VUndefined.
Proof. by destruct b. Qed.

Ltac boolean_flags :=
  apply list_to_map_boolean;
  repeat first
    [ apply Forall_nil_2
    | apply Forall_cons_2;
      [ first [ done
              | by apply versionDependent_boolean
              | apply of_bool_boolean ] | ] ].

Lemma node_handler_boolean a major minor :
  major ≠ "" → all_boolean (node_handler [a; Some major; minor]).
Proof. intros Hne. unfold node_handler. boolean_flags. Qed.

Lemma web_handler_boolean args : all_boolean (web_handler args).
Proof. unfold web_handler. boolean_flags. Qed.

Lemma webworker_handler_boolean args : all_boolean (webworker_handler args).
Proof. unfold webworker_handler. boolean_flags. Qed.

Lemma electron_main_handler_boolean major minor :
  major ≠ "" → all_boolean (electron_main_handler [Some major; minor]).
Proof. intros Hne. unfold electron_main_handler. boolean_flags. Qed.

Lemma electron_preload_handler_boolean major minor :
  major ≠ "" → all_boolean (electron_preload_handler [Some major; minor]).
Proof. intros Hne. unfold electron_preload_handler. boolean_flags. Qed.

Lemma nwjs_handler_boolean major minor :
  major ≠ "" → all_boolean (nwjs_handler [Some major; minor]).
Proof. intros Hne. unfold nwjs_handler. boolean_flags. Qed.

Lemma es_handler_boolean args : all_boolean (es_handler args).
Proof. unfold es_handler, at_least. boolean_flags. Qed.

(** C10. Whenever [getTargetProperties] returns, every key of the returned
    object holds [true] or [false], never [undefined]: each pattern that
    feeds [versionDependent] captures a non-empty version, so the branch
    returning [undefined] is not taken. *)
Theorem resolved_flags_boolean (target : string) (result : obj) :
  getTargetProperties target = Return result →
  ∀ key v, result !! key = Some v → v = VTrue ∨ v = VFalse.
Proof.
  unfold getTargetProperties, TARGETS. cbn [scan regExp handler object_truthy].
  destruct (exec node_re target) as [m|] eqn:Hnode.
  { apply exec_node_re in Hnode as (major & minor & -> & Hne).
    intros [= <-]. by apply node_handler_boolean. }
  destruct (exec web_re target) as [m|] eqn:Hweb.
  { intros [= <-]. apply web_handler_boolean. }
  destruct (exec webworker_re target) as [m|] eqn:Hworker.
  { intros [= <-]. apply webworker_handler_boolean. }
  destruct (exec electron_main_re target) as [m|] eqn:Hmain.
  { apply exec_electron_main_re in Hmain as (major & minor & -> & Hne).
    intros [= <-]. by apply electron_main_handler_boolean. }
  destruct (exec electron_preload_re target) as [m|] eqn:Hpreload.
  { apply exec_electron_preload_re in Hpreload as (major & minor & -> & Hne).
    intros [= <-]. by apply electron_preload_handler_boolean. }
  destruct (exec nwjs_re target) as [m|] eqn:Hnwjs.
  { apply exec_nwjs_re in Hnwjs as (major & minor & -> & Hne).
    intros [= <-]. by apply nwjs_handler_boolean. }
  destruct (exec es_re target) as [m|] eqn:Hes.
  { intros [= <-]. apply es_handler_boolean. }
  done.
Qed.

Lemma resolved_flags_boolean_witness :
  getTargetProperties "electron4.0-renderer"
  = Return (electron_preload_handler [Some "4.0"; Some "0"]) ∧
  electron_preload_handler [Some "4.0"; Some "0"] !! "globalThis"
  = Some VFalse ∧
  (VFalse = VTrue ∨ VFalse = VFalse).
Proof.
  assert (getTargetProperties "electron4.0-renderer"
          = Return (electron_preload_handler [Some "4.0"; Some "0"])) as H1
    by reflexivity.
  assert (electron_preload_handler [Some "4.0"; Some "0"] !! "globalThis"
          = Some VFalse) as H2 by (vm_compute; reflexivity).
  split; [exact H1 |]. split; [exact H2 |].
  exact (resolved_flags_boolean _ _ H1 _ _ H2).
Defined.

(** ** The "Unknown target" error *)

Section Contains.
Implicit Types (a b x : string).

Lemma contains_refl x : contains x x.
Proof. exists "", "". by rewrite app_nil_l, app_nil_r. Qed.

Lemma contains_app_l x a b : contains x a → contains x (a +:+ b).
Proof.
  intros (pre & post & ->). exists pre, (post +:+ b).
  by rewrite !app_assoc.
Qed.

Lemma contains_app_r x a b : contains x b → contains x (a +:+ b).
Proof.
  intros (pre & post & ->). exists (a +:+ pre), post.
  by rewrite !app_assoc.
Qed.

Lemma contains_concat sep (ls : list string) x l :
  l ∈ ls → contains x l → contains x (String.concat sep ls).
Proof.
  intros Hin Hx. induction ls as [|l' ls IH]; [by inversion Hin |].
  apply elem_of_cons in Hin as [<-|Hin]; simpl.
  - destruct ls; [done |]. by apply contains_app_l.
  - destruct ls as [|l'' ls]; [by inversion Hin |].
    apply contains_app_r, contains_app_r. by apply IH.
Qed.
End Contains.

Lemma scan_None (targets : list target_entry) (target : string) :
  scan targets target = None
  ↔ ∀ t, t ∈ targets → exec (regExp t) target = None.
Proof.
  induction targets as [|t targets IH]; simpl.
  - split; [intros _ t Hin; by inversion Hin | done].
  - destruct (exec (regExp t) target) as [m|] eqn:Ht.
    + unfold object_truthy. split; [done |].
      intros Hall. specialize (Hall t (list_elem_of_here _ _)). congruence.
    + rewrite IH. split.
      * intros Hall t' [->|?]%elem_of_cons; auto.
      * intros Hall t' ?. apply Hall. by right.
Qed.

Lemma message_contains_line (target : string) (t : target_entry) x :
  t ∈ TARGETS → contains x (supported_line t) →
  contains x (unknown_target_message target).
Proof.
  intros Hin Hx. unfold unknown_target_message.
  do 4 apply contains_app_r.
  apply (contains_concat _ _ _ (supported_line t)); [| done].
  by apply list_elem_of_fmap_2.
Qed.

(** C8. When no pattern of the table matches the string, the call throws the
    "Unknown target" error; its message holds the string and the name and
    description of every row of the table.  [getTargetProperties] throws in
    no other case. *)
Theorem unknown_target (target : string) :
  ((∀ t, t ∈ TARGETS → exec (regExp t) target = None) →
     getTargetProperties target = Throw (unknown_target_message target)) ∧
  (∀ msg, getTargetProperties target = Throw msg →
     msg = unknown_target_message target ∧
     ∀ t, t ∈ TARGETS → exec (regExp t) target = None) ∧
  contains target (unknown_target_message target) ∧
  (∀ t, t ∈ TARGETS →
     contains (name t) (unknown_target_message target) ∧
     contains (description t) (unknown_target_message target)).
Proof.
  unfold getTargetProperties. split_and!.
  - intros Hnone%scan_None. by rewrite Hnone.
  - intros msg. destruct (scan TARGETS target) eqn:Hscan; [done |].
    intros [= <-]. split; [done | by apply scan_None].
  - unfold unknown_target_message. apply contains_app_r, contains_app_l.
    apply contains_refl.
  - intros t Hin.
    split; apply (message_contains_line _ t); [done | | done |];
      unfold supported_line.
    + apply contains_app_r, contains_app_l, contains_refl.
    + do 3 apply contains_app_r. apply contains_refl.
Qed.

Lemma unknown_target_witness :
  getTargetProperties "bogus-target"
  = Throw (unknown_target_message "bogus-target").
Proof.
  refine (proj1 (unknown_target "bogus-target") _).
  intros t Hin. apply list_elem_of_In in Hin. simpl in Hin.
  repeat destruct Hin as [<-|Hin]; try (vm_compute; reflexivity).
  destruct Hin.
Defined.

(** ** Merging *)

Section Merge.
Implicit Types (tps : list obj) (tp : obj) (key : string) (v : value).

Lemma get_Some tp key v : tp !! key = Some v → get tp key = v.
Proof. unfold get. by intros ->. Qed.

Lemma get_None tp key : tp !! key = None → get tp key = VUndefined.
Proof. unfold get. by intros ->. Qed.

Lemma get_true tp key : is_true (get tp key) = true ↔ tp !! key = Some VTrue.
Proof. unfold get. destruct (tp !! key) as [[]|]; naive_solver. Qed.

Lemma get_false tp key :
  is_false (get tp key) = true ↔ tp !! key = Some VFalse.
Proof. unfold get. destruct (tp !! key) as [[]|]; naive_solver. Qed.

(** The assignment [merged = undefined] is dead code: no value is both
    [undefined] and truthy. *)
Lemma undefined_not_truthy v : is_undefined v && truthy v = false.
Proof. by destruct v. Qed.

Lemma elem_of_add_keys (l : list string) (keys : gset string) key :
  key ∈ foldl (λ keys key, keys ∪ {[ key ]}) keys l ↔ key ∈ keys ∨ key ∈ l.
Proof.
  revert keys. induction l as [|x l IH]; intros keys; simpl.
  - set_solver.
  - rewrite IH. set_solver.
Qed.

Lemma elem_of_collect_from tps (keys : gset string) key :
  key ∈ foldl (λ keys tp,
                 foldl (λ keys key, keys ∪ {[ key ]}) keys (Object_keys tp))
              keys tps
  ↔ key ∈ keys ∨ ∃ tp, tp ∈ tps ∧ is_Some (tp !! key).
Proof.
  revert keys. induction tps as [|tp tps IH]; intros keys; simpl.
  - setoid_rewrite elem_of_nil. naive_solver.
  - rewrite IH, elem_of_add_keys. unfold Object_keys.
    rewrite elem_of_elements, elem_of_dom.
    setoid_rewrite elem_of_cons. naive_solver.
Qed.

(** The key set is the union of the keys of the inputs. *)
Lemma elem_of_collect_keys tps key :
  key ∈ collect_keys tps ↔ ∃ tp, tp ∈ tps ∧ is_Some (tp !! key).
Proof.
  unfold collect_keys. rewrite elem_of_collect_from, elem_of_empty.
  naive_solver.
Qed.

Lemma lookup_assign_all (f : string → value) (l : list string)
    (result : obj) key :
  foldl (λ result key, <[key := f key]> result) result l !! key
  = if decide (key ∈ l) then Some (f key) else result !! key.
Proof.
  revert result. induction l as [|x l IH]; intros result; cbn [foldl].
  - rewrite decide_False; [done | by intros ?%elem_of_nil].
  - rewrite IH. destruct (decide (key ∈ l)) as [Hl|Hl].
    + rewrite decide_True; [done | by right].
    + destruct (decide (x = key)) as [->|Hne].
      * rewrite decide_True; [|by left]. by rewrite lookup_insert_eq.
      * rewrite decide_False; [by rewrite lookup_insert_ne |].
        intros [?|?]%elem_of_cons; congruence.
Qed.

(** What [result[key]] holds after the last loop. *)
Lemma lookup_merge tps any key :
  mergeTargetProperties tps any !! key
  = if decide (key ∈ collect_keys tps)
    then Some (merge_key any key tps (of_bool (negb any)))
    else None.
Proof.
  unfold mergeTargetProperties. rewrite lookup_assign_all, lookup_empty.
  destruct (decide (key ∈ elements (collect_keys tps))) as [Hin|Hin];
    rewrite elem_of_elements in Hin.
  - by rewrite decide_True.
  - by rewrite decide_False.
Qed.

Lemma merge_key_all_false tps key merged :
  (∃ tp, tp ∈ tps ∧ tp !! key = Some VFalse) →
  merge_key false key tps merged = VFalse.
Proof.
  revert merged. induction tps as [|tp tps IH]; intros merged (tp' & Hin & Hf).
  - by inversion Hin.
  - simpl. destruct (is_false (get tp key)) eqn:Hv; [done |].
    rewrite undefined_not_truthy. apply IH.
    apply elem_of_cons in Hin as [->|?]; [| by exists tp'].
    apply get_false in Hf. congruence.
Qed.

Lemma merge_key_all_kept tps key merged :
  (∀ tp, tp ∈ tps → tp !! key ≠ Some VFalse) →
  merge_key false key tps merged = merged.
Proof.
  revert merged. induction tps as [|tp tps IH]; intros merged Hno; [done |].
  simpl. destruct (is_false (get tp key)) eqn:Hv.
  - apply get_false in Hv. destruct (Hno tp); [by left | done].
  - rewrite undefined_not_truthy. apply IH.
    intros tp' ?. apply Hno. by right.
Qed.

Lemma merge_key_any_true tps key merged :
  (∃ tp, tp ∈ tps ∧ tp !! key = Some VTrue) →
  merge_key true key tps merged = VTrue.
Proof.
  revert merged. induction tps as [|tp tps IH]; intros merged (tp' & Hin & Ht).
  - by inversion Hin.
  - simpl. destruct (is_true (get tp key)) eqn:Hv; [done |].
    apply IH. apply elem_of_cons in Hin as [->|?]; [| by exists tp'].
    apply get_true in Ht. congruence.
Qed.

Lemma merge_key_any_kept tps key merged :
  (∀ tp, tp ∈ tps → tp !! key ≠ Some VTrue) →
  merge_key true key tps merged = merged.
Proof.
  revert merged. induction tps as [|tp tps IH]; intros merged Hno; [done |].
  simpl. destruct (is_true (get tp key)) eqn:Hv.
  - apply get_true in Hv. destruct (Hno tp); [by left | done].
  - apply IH. intros tp' ?. apply Hno. by right.
Qed.
End Merge.

(** C2. Conjunctive merge ([any = false], the default).  For a key held by at
    least one input, the merged value is [false] when some input holds
    [false] for it and [true] otherwise, whatever the other inputs hold
    ([undefined] or nothing); a key held by no input is not in the result. *)
Theorem merge_conjunctive (tps : list obj) (key : string) :
  ((∃ tp, tp ∈ tps ∧ is_Some (tp !! key)) →
     ((∃ tp, tp ∈ tps ∧ tp !! key = Some VFalse) →
        mergeTargetProperties tps false !! key = Some VFalse) ∧
     ((∀ tp, tp ∈ tps → tp !! key ≠ Some VFalse) →
        mergeTargetProperties tps false !! key = Some VTrue)) ∧
  ((∀ tp, tp ∈ tps → tp !! key = None) →
     mergeTargetProperties tps false !! key = None).
Proof.
  rewrite lookup_merge. split.
  - intros Hkey%elem_of_collect_keys. rewrite decide_True by done.
    split; intros H.
    + by rewrite merge_key_all_false.
    + by rewrite merge_key_all_kept.
  - intros Hnone. rewrite decide_False; [done |].
    intros (tp & Hin & Hsome)%elem_of_collect_keys.
    rewrite (Hnone tp Hin) in Hsome.
    by destruct Hsome.
Qed.

(** The spec's instances: [{a: true}, {a: true}], [{a: true}, {a: false}]
    and [{a: true}, {}]. *)
Example merge_conjunctive_examples :
  mergeTargetProperties [{["a" := VTrue]}; {["a" := VTrue]}] false
    = {["a" := VTrue]} ∧
  mergeTargetProperties [{["a" := VTrue]}; {["a" := VFalse]}] false
    = {["a" := VFalse]} ∧
  mergeTargetProperties [{["a" := VTrue]}; ∅] false = {["a" := VTrue]} ∧
  mergeTargetProperties [{["a" := VTrue]}; {["a" := VUndefined]}] false
    = {["a" := VTrue]}.
Proof. repeat split; vm_compute; reflexivity. Qed.

Lemma merge_conjunctive_witness :
  mergeTargetProperties [{["a" := VTrue]}; {["b" := VFalse]}] false !! "a"
    = Some VTrue.
Proof.
  refine (proj2 (proj1 (merge_conjunctive
            [{["a" := VTrue]}; {["b" := VFalse]}] "a") _) _).
  - exists {["a" := VTrue]}. split; [apply list_elem_of_here | by eexists].
  - intros tp Hin. apply list_elem_of_In in Hin.
    destruct Hin as [<-|[<-|[]]]; vm_compute; discriminate.
Defined.

(** C6. Disjunctive merge ([any = true]).  For a key held by at least one
    input, the merged value is [true] when some input holds [true] for it,
    whatever the others hold, and [false] otherwise (never [undefined]). *)
Theorem merge_disjunctive (tps : list obj) (key : string) :
  ((∃ tp, tp ∈ tps ∧ is_Some (tp !! key)) →
     ((∃ tp, tp ∈ tps ∧ tp !! key = Some VTrue) →
        mergeTargetProperties tps true !! key = Some VTrue) ∧
     ((∀ tp, tp ∈ tps → tp !! key ≠ Some VTrue) →
        mergeTargetProperties tps true !! key = Some VFalse)) ∧
  ((∀ tp, tp ∈ tps → tp !! key = None) →
     mergeTargetProperties tps true !! key = None).
Proof.
  rewrite lookup_merge. split.
  - intros Hkey%elem_of_collect_keys. rewrite decide_True by done.
    split; intros H.
    + by rewrite merge_key_any_true.
    + by rewrite merge_key_any_kept.
  - intros Hnone. rewrite decide_False; [done |].
    intros (tp & Hin & Hsome)%elem_of_collect_keys.
    rewrite (Hnone tp Hin) in Hsome.
    by destruct Hsome.
Qed.

(** The spec's instances: [{a: false}, {a: true}] and [{a: false}, {}]. *)
Example merge_disjunctive_examples :
  mergeTargetProperties [{["a" := VFalse]}; {["a" := VTrue]}] true
    = {["a" := VTrue]} ∧
  mergeTargetProperties [{["a" := VFalse]}; ∅] true = {["a" := VFalse]} ∧
  mergeTargetProperties [{["a" := VUndefined]}; ∅] true = {["a" := VFalse]}.
Proof. repeat split; vm_compute; reflexivity. Qed.

Lemma merge_disjunctive_witness :
  mergeTargetProperties
    [{["a" := VFalse]}; {["a" := VUndefined]}; {["a" := VTrue]}] true !! "a"
    = Some VTrue.
Proof.
  refine (proj1 (proj1 (merge_disjunctive
            [{["a" := VFalse]}; {["a" := VUndefined]}; {["a" := VTrue]}]
            "a") _) _).
  - exists {["a" := VFalse]}. split; [apply list_elem_of_here | by eexists].
  - exists {["a" := VTrue]}. split; [| reflexivity].
    apply list_elem_of_In. simpl. tauto.
Defined.

(** ** Resolving several targets *)

Section MapThrowing.
Context {A B : Type} (f : A → completion B).

Lemma map_throwing_Return (l : list A) (ys : list B) :
  Forall2 (λ x y, f x = Return y) l ys → map_throwing f l = Return ys.
Proof.
  induction 1 as [|x y l ys Hx _ IH]; simpl; [done |].
  by rewrite Hx, IH.
Qed.

Lemma map_throwing_Throw (pre post : list A) (x : A) (msg : string) :
  Forall (λ x', ∃ y, f x' = Return y) pre →
  f x = Throw msg →
  map_throwing f (pre ++ x :: post) = Throw msg.
Proof.
  intros Hpre Hx. induction Hpre as [|x' pre [y Hy] _ IH]; simpl.
  - by rewrite Hx.
  - by rewrite Hy, IH.
Qed.
End MapThrowing.

(** C7. [getTargetsProperties] resolves every element with
    [getTargetProperties] and merges the objects with [any = false]: a key
    of the result is [false] when some resolved object holds [false] for it,
    [true] when some object holds the key and none holds [false], and
    missing when no object holds it.  When an element throws, the call
    throws the error of the first such element and returns no merged
    object. *)
Theorem getTargetsProperties_spec (targets : list string) :
  (∀ tps,
     Forall2 (λ t tp, getTargetProperties t = Return tp) targets tps →
     ∃ result,
       getTargetsProperties targets = Return result ∧
       result = mergeTargetProperties tps false ∧
       ∀ key,
         ((∃ tp, tp ∈ tps ∧ tp !! key = Some VFalse) →
            result !! key = Some VFalse) ∧
         ((∃ tp, tp ∈ tps ∧ is_Some (tp !! key)) →
          (∀ tp, tp ∈ tps → tp !! key ≠ Some VFalse) →
            result !! key = Some VTrue) ∧
         ((∀ tp, tp ∈ tps → tp !! key = None) → result !! key = None)) ∧
  (∀ pre t post msg,
     targets = pre ++ t :: post →
     Forall (λ t', ∃ tp, getTargetProperties t' = Return tp) pre →
     getTargetProperties t = Throw msg →
     getTargetsProperties targets = Throw msg).
Proof.
  unfold getTargetsProperties. split.
  - intros tps Hall. rewrite (map_throwing_Return _ _ _ Hall).
    eexists. split; [done |]. split; [done |].
    intros key. rewrite lookup_merge. split_and!.
    + intros (tp & Hin & Hfalse).
      rewrite decide_True by (apply elem_of_collect_keys; by exists tp).
      rewrite merge_key_all_false; [done | by exists tp].
    + intros Hkey%elem_of_collect_keys Hnone.
      rewrite decide_True by done. by rewrite merge_key_all_kept.
    + intros Hnone. rewrite decide_False; [done |].
      intros (tp & Hin & Hsome)%elem_of_collect_keys.
      rewrite (Hnone tp Hin) in Hsome. by destruct Hsome.
  - intros pre t post msg -> Hpre Ht.
    by rewrite (map_throwing_Throw _ _ _ _ _ Hpre Ht).
Qed.

Lemma getTargetsProperties_witness :
  (∃ result,
     getTargetsProperties ["web"; "async-node10"] = Return result ∧
     result !! "web" = Some VFalse ∧
     result !! "const" = Some VTrue ∧
     result !! "bigIntLiteral" = None) ∧
  getTargetsProperties ["web"; "bogus-target"; "es5"; "other"]
  = Throw (unknown_target_message "bogus-target").
Proof.
  split.
  - destruct (proj1 (getTargetsProperties_spec ["web"; "async-node10"])
                [web_handler [];
                 node_handler [Some "async-"; Some "10"; None]])
      as (result & Hres & _ & Hkeys).
    { constructor; [reflexivity |]. constructor; [reflexivity |].
      constructor. }
    exists result. split; [exact Hres |].
    assert (∀ (P : obj → Prop),
              P (web_handler []) →
              P (node_handler [Some "async-"; Some "10"; None]) →
              ∀ tp, tp ∈ [web_handler [];
                          node_handler [Some "async-"; Some "10"; None]] →
                    P tp) as Hboth.
    { intros P Hweb Hnode tp Hin. apply list_elem_of_In in Hin.
      destruct Hin as [<-|[<-|[]]]; assumption. }
    split_and!.
    + apply (proj1 (Hkeys "web")).
      exists (node_handler [Some "async-"; Some "10"; None]).
      split; [apply list_elem_of_In; simpl; tauto | vm_compute; reflexivity].
    + apply (proj1 (proj2 (Hkeys "const"))).
      * exists (node_handler [Some "async-"; Some "10"; None]).
        split; [apply list_elem_of_In; simpl; tauto |].
        exists VTrue. vm_compute. reflexivity.
      * apply Hboth; vm_compute; discriminate.
    + apply (proj2 (proj2 (Hkeys "bigIntLiteral"))).
      apply Hboth; vm_compute; reflexivity.
  - refine (proj2 (getTargetsProperties_spec _) ["web"] "bogus-target"
              ["es5"; "other"] _ eq_refl _ _).
    + constructor; [| constructor]. eexists. reflexivity.
    + reflexivity.
Defined.

(** The spec's instance: ["web", "es2020"] keeps [web = true] and has every
    syntax flag [true]. *)
Example getTargetsProperties_web_es2020 :
  getTargetsProperties ["web"; "es2020"]
  = Return (list_to_map [
      ("web", VTrue); ("node", VFalse); ("electronMain", VFalse);
      ("electronPreload", VFalse); ("nwjs", VFalse);
      ("document", VTrue); ("importScriptsInWorker", VTrue);
      ("fetchWasm", VTrue); ("importScripts", VFalse); ("require", VFalse);
      ("global", VFalse);
      ("globalThis", VTrue); ("const", VTrue); ("arrowFunctions", VTrue);
      ("forOf", VTrue); ("destructuring", VTrue); ("bigInitLiteral", VTrue);
      ("import", VTrue); ("module", VTrue)]).
Proof. reflexivity. Qed.

(** * Further properties *)

(** ** Completeness of the matcher *)

Section Completeness.
Context {A : Type}.
Implicit Types (k : string → option A).

Lemma digits_star_skip s k : is_Some (k s) → is_Some (digits_star s k).
Proof.
  destruct s as [|c s]; simpl; [done |].
  destruct (is_digit c); [| done]. by destruct (digits_star s k).
Qed.

Lemma digits_star_complete ds s' k :
  all_digits ds = true → is_Some (k s') → is_Some (digits_star (ds +:+ s') k).
Proof.
  unfold all_digits. induction ds as [|c ds IH]; simpl.
  - intros _. apply digits_star_skip.
  - intros [-> Hds]%andb_prop Hk. rewrite ?app_cons; simpl.
    by destruct (IH Hds Hk) as [m ->].
Qed.

Lemma digits_plus_complete ds s' k :
  digits ds → is_Some (k s') → is_Some (digits_plus (ds +:+ s') k).
Proof.
  intros [Hne Hds] Hk. destruct ds as [|c ds]; [done |].
  unfold all_digits in Hds. simpl in Hds.
  apply andb_prop in Hds as [Hc Hds]. rewrite ?app_cons; simpl. rewrite Hc.
  by apply digits_star_complete.
Qed.
End Completeness.

(** Every match of the pattern is found by the backtracking matcher (which
    may settle for another match that it tries earlier). *)
Lemma run_complete r x c c' s' k :
  matches r x c c' → is_Some (k s' c') → is_Some (run r (x +:+ s') c k).
Proof.
  intros Hm. revert s' k.
  induction Hm as [l c|ds c Hne Hds|r1 r2 x y c c1 c2 _ IH1 _ IH2
                  |r1 r2 x c c' _ IH|r1 r2 x c c' _ IH
                  |r x c c' _ IH|r c|n r x c c' _ IH]; intros s' k Hk; simpl.
  - by rewrite (proj2 (strip_prefix_Some l _ s') eq_refl).
  - by apply digits_plus_complete.
  - rewrite app_assoc. apply IH1, IH2, Hk.
  - by destruct (IH s' k Hk) as [m ->].
  - destruct (run r1 (x +:+ s') c k); [done |]. by apply IH.
  - by destruct (IH s' k Hk) as [m ->].
  - rewrite ?app_nil_l. destruct (run r _ c k); [done | exact Hk].
  - apply IH. by rewrite consumed_app.
Qed.

Lemma exec_complete r s c' :
  matches r s (replicate (S (groups r)) None) c' → is_Some (exec r s).
Proof.
  intros Hm. unfold exec. rewrite <- (app_nil_r s) at 1.
  by apply (run_complete _ _ _ c').
Qed.

(** ** The text of a version is read in one way *)

Section Versions.
Implicit Types (a b t s : string) (major : string) (minor : option string).

Lemma span_digits_app a b :
  all_digits a = true →
  match b with String c _ => is_digit c = false | EmptyString => True end →
  span_digits (a +:+ b) = (a, b).
Proof.
  unfold all_digits. induction a as [|c a IH]; simpl.
  - intros _. destruct b as [|c b]; [done |]. simpl. by intros ->.
  - intros [Hc Ha]%andb_prop Hb. rewrite ?app_cons; simpl.
    by rewrite Hc, IH.
Qed.

Lemma digits_app_inj a b a' b' :
  all_digits a = true → all_digits a' = true →
  match b with String c _ => is_digit c = false | EmptyString => True end →
  match b' with String c _ => is_digit c = false | EmptyString => True end →
  a +:+ b = a' +:+ b' → a = a' ∧ b = b'.
Proof.
  intros Ha Ha' Hb Hb' Heq.
  pose proof (span_digits_app a b Ha Hb) as H1.
  rewrite Heq, (span_digits_app a' b' Ha' Hb') in H1. by injection H1.
Qed.

Lemma ends_version_stop t :
  ends_version t →
  match t with String c _ => is_digit c = false | EmptyString => True end.
Proof. destruct t; [done |]. by intros [? _]. Qed.

Lemma version_text_app major minor t :
  version_text major minor +:+ t
  = major +:+ match minor with
               | Some m => String "." (m +:+ t)
               | None => t
               end.
Proof.
  unfold version_text. rewrite app_assoc. by destruct minor.
Qed.

(** A version followed by something that does not go on a version splits
    in one way into major, minor and the rest. *)
Lemma version_text_inj major minor t major' minor' t' :
  is_version major minor → is_version major' minor' →
  ends_version t → ends_version t' →
  version_text major minor +:+ t = version_text major' minor' +:+ t' →
  major = major' ∧ minor = minor' ∧ t = t'.
Proof.
  intros [[_ HM] Hm] [[_ HM'] Hm'] Ht Ht'. rewrite !version_text_app.
  intros Heq. apply digits_app_inj in Heq as [<- Heq]; [| done | done | |].
  - split; [done |]. destruct minor as [m|], minor' as [m'|].
    + injection Heq as Heq. destruct Hm as [_ Hm], Hm' as [_ Hm'].
      apply digits_app_inj in Heq as [<- <-];
        first [done | by apply ends_version_stop].
    + subst t'. by destruct Ht' as [_ []].
    + subst t. by destruct Ht as [_ []].
    + done.
  - destruct minor; [done | by apply ends_version_stop].
  - destruct minor'; [done | by apply ends_version_stop].
Qed.

Lemma matches_version_text n major minor c :
  is_version major minor →
  matches (version_re n) (version_text major minor) c
    match minor with Some m => <[n := Some m]> c | None => c end.
Proof.
  intros [[HneM HM] Hm]. unfold version_re, version_text.
  apply M_Seq with (c1 := c); [by constructor |].
  destruct minor as [m|].
  - apply M_Opt_some. apply M_Seq with (c1 := c); [constructor |].
    destruct Hm. by repeat constructor.
  - apply M_Opt_none.
Qed.

Lemma matches_version_inv n x c c' :
  matches (version_re n) x c c' →
  ∃ major minor,
    is_version major minor ∧ x = version_text major minor ∧
    c' = match minor with Some m => <[n := Some m]> c | None => c end.
Proof.
  unfold version_re. intros H. invert_matches.
  - eexists _, (Some _). by repeat split.
  - eexists _, None. by repeat split.
Qed.
End Versions.

(** ** What each pattern accepts and captures *)

Lemma version_text_inj_end major minor major' minor' :
  is_version major minor → is_version major' minor' →
  version_text major minor = version_text major' minor' →
  major = major' ∧ minor = minor'.
Proof.
  intros Hv Hv' Heq.
  destruct (version_text_inj major minor "" major' minor' "") as (? & ? & _);
    [done | done | done | done | by rewrite !app_nil_r | done].
Qed.

Lemma exec_node_re_iff s m :
  exec node_re s = Some m
  ↔ ∃ major minor,
      is_version major minor ∧
      s = "async-node" +:+ version_text major minor ∧
      m = [Some s; Some "async-"; Some (version_text major minor); minor].
Proof.
  assert (∀ s m, exec node_re s = Some m →
            ∃ major minor,
              is_version major minor ∧
              s = "async-node" +:+ version_text major minor ∧
              m = [Some s; Some "async-"; Some (version_text major minor);
                   minor]) as Hsound.
  { clear. intros s m (c' & H & ->)%exec_sound. unfold node_re in H.
    inversion H as [| |? ? x y ? c1 ? H1 H2| | | | |]; subst; clear H.
    inversion H2 as [| |? ? x' y' ? c2 ? H3 H4| | | | |]; subst; clear H2.
    inversion H4 as [| | | | | | |? ? ? ? c3 H5]; subst; clear H4.
    apply matches_version_inv in H5 as (major & minor & Hv & -> & ->).
    invert_matches. exists major, minor.
    split; [done |]. split; [done |]. by destruct minor. }
  split; [apply Hsound |].
  intros (major & minor & Hv & -> & ->).
  destruct (exec_complete node_re ("async-node" +:+ version_text major minor)
              (<[2%nat := Some (version_text major minor)]>
                 match minor with
                 | Some y => <[3%nat := Some y]> [None; Some "async-"; None; None]
                 | None => [None; Some "async-"; None; None]
                 end)) as [m Hm].
  { refine (M_Seq _ _ "async-" ("node" +:+ version_text major minor)
              _ _ _ _ _); [apply (M_Group 1), M_Lit |].
    refine (M_Seq _ _ "node" _ _ _ _ _ _); [apply M_Lit |].
    apply M_Group. by apply matches_version_text. }
  rewrite Hm. destruct (Hsound _ _ Hm) as (major' & minor' & Hv' & Heq & ->).
  apply (inj (String.app "async-node")) in Heq.
  by destruct (version_text_inj_end _ _ _ _ Hv Hv' Heq) as [<- <-].
Qed.

Lemma ends_version_dash (t : string) : ends_version ("-" +:+ t).
Proof. split; [reflexivity | discriminate]. Qed.

Lemma exec_web_re_iff s m :
  exec web_re s = Some m ↔ s = "web" ∧ m = [Some "web"].
Proof.
  split.
  - intros (c' & H & ->)%exec_sound. unfold web_re in H. by invert_matches.
  - by intros [-> ->].
Qed.

Lemma exec_webworker_re_iff s m :
  exec webworker_re s = Some m ↔ s = "webworker" ∧ m = [Some "webworker"].
Proof.
  split.
  - intros (c' & H & ->)%exec_sound. unfold webworker_re in H.
    by invert_matches.
  - by intros [-> ->].
Qed.

Lemma exec_electron_main_re_iff s m :
  exec electron_main_re s = Some m
  ↔ ∃ major minor,
      is_version major minor ∧
      s = "electron" +:+ version_text major minor +:+ "-main" ∧
      m = [Some s; Some (version_text major minor); minor].
Proof.
  assert (∀ s m, exec electron_main_re s = Some m →
            ∃ major minor,
              is_version major minor ∧
              s = "electron" +:+ version_text major minor +:+ "-main" ∧
              m = [Some s; Some (version_text major minor); minor])
    as Hsound.
  { clear. intros s m (c' & H & ->)%exec_sound. unfold electron_main_re in H.
    inversion H as [| |? ? x y ? c1 ? H1 H2| | | | |]; subst; clear H.
    inversion H2 as [| |? ? x' y' ? c2 ? H3 H4| | | | |]; subst; clear H2.
    inversion H3 as [| | | | | | |? ? ? ? c3 H5]; subst; clear H3.
    apply matches_version_inv in H5 as (major & minor & Hv & -> & ->).
    invert_matches. exists major, minor.
    split; [done |]. split; [done |]. by destruct minor. }
  split; [apply Hsound |].
  intros (major & minor & Hv & -> & ->).
  destruct (exec_complete electron_main_re
              ("electron" +:+ version_text major minor +:+ "-main")
              (<[1%nat := Some (version_text major minor)]>
                 match minor with
                 | Some y => <[2%nat := Some y]> [None; None; None]
                 | None => [None; None; None]
                 end)) as [m Hm].
  { apply M_Seq with (c1 := [None; None; None]); [apply M_Lit |].
    eapply M_Seq; [| apply M_Lit].
    apply M_Group. by apply matches_version_text. }
  rewrite Hm. destruct (Hsound _ _ Hm) as (major' & minor' & Hv' & Heq & ->).
  apply (inj (String.app "electron")) in Heq.
  by destruct (version_text_inj _ _ _ _ _ _ Hv Hv' (ends_version_dash _)
                 (ends_version_dash _) Heq) as (<- & <- & _).
Qed.

Lemma exec_electron_preload_re_iff s m :
  exec electron_preload_re s = Some m
  ↔ ∃ major minor context,
      is_version major minor ∧
      (context = "preload" ∨ context = "renderer") ∧
      s = "electron" +:+ version_text major minor +:+ "-" +:+ context ∧
      m = [Some s; Some (version_text major minor); minor].
Proof.
  assert (∀ s m, exec electron_preload_re s = Some m →
            ∃ major minor context,
              is_version major minor ∧
              (context = "preload" ∨ context = "renderer") ∧
              s = "electron" +:+ version_text major minor +:+ "-"
                  +:+ context ∧
              m = [Some s; Some (version_text major minor); minor])
    as Hsound.
  { clear. intros s m (c' & H & ->)%exec_sound.
    unfold electron_preload_re in H.
    inversion H as [| |? ? x y ? c1 ? H1 H2| | | | |]; subst; clear H.
    inversion H2 as [| |? ? x' y' ? c2 ? H3 H4| | | | |]; subst; clear H2.
    inversion H3 as [| | | | | | |? ? ? ? c3 H5]; subst; clear H3.
    apply matches_version_inv in H5 as (major & minor & Hv & -> & ->).
    invert_matches.
    - exists major, minor, "preload". split_and!; auto. by destruct minor.
    - exists major, minor, "renderer". split_and!; auto. by destruct minor. }
  split; [apply Hsound |].
  intros (major & minor & context & Hv & Hctx & -> & ->).
  destruct (exec_complete electron_preload_re
              ("electron" +:+ version_text major minor +:+ "-" +:+ context)
              (<[1%nat := Some (version_text major minor)]>
                 match minor with
                 | Some y => <[2%nat := Some y]> [None; None; None]
                 | None => [None; None; None]
                 end)) as [m Hm].
  { apply M_Seq with (c1 := [None; None; None]); [apply M_Lit |].
    eapply M_Seq; [apply M_Group; by apply matches_version_text |].
    eapply M_Seq; [apply M_Lit |].
    destruct Hctx as [-> | ->]; [apply M_Alt_l | apply M_Alt_r]; apply M_Lit. }
  rewrite Hm.
  destruct (Hsound _ _ Hm)
    as (major' & minor' & context' & Hv' & Hctx' & Heq & ->).
  apply (inj (String.app "electron")) in Heq.
  by destruct (version_text_inj _ _ _ _ _ _ Hv Hv' (ends_version_dash _)
                 (ends_version_dash _) Heq) as (<- & <- & _).
Qed.

Lemma exec_nwjs_re_iff s m :
  exec nwjs_re s = Some m
  ↔ ∃ family major minor,
      is_version major minor ∧
      (family = "nwjs" ∨ family = "node-webkit") ∧
      s = family +:+ version_text major minor ∧
      m = [Some s; Some (version_text major minor); minor].
Proof.
  assert (∀ s m, exec nwjs_re s = Some m →
            ∃ family major minor,
              is_version major minor ∧
              (family = "nwjs" ∨ family = "node-webkit") ∧
              s = family +:+ version_text major minor ∧
              m = [Some s; Some (version_text major minor); minor])
    as Hsound.
  { clear. intros s m (c' & H & ->)%exec_sound. unfold nwjs_re in H.
    inversion H as [| |? ? x y ? c1 ? H1 H2| | | | |]; subst; clear H.
    inversion H2 as [| | | | | | |? ? ? ? c3 H5]; subst; clear H2.
    apply matches_version_inv in H5 as (major & minor & Hv & -> & ->).
    invert_matches.
    - exists "nwjs", major, minor. split_and!; auto. by destruct minor.
    - exists "node-webkit", major, minor. split_and!; auto.
      by destruct minor. }
  split; [apply Hsound |].
  intros (family & major & minor & Hv & Hfam & -> & ->).
  destruct (exec_complete nwjs_re (family +:+ version_text major minor)
              (<[1%nat := Some (version_text major minor)]>
                 match minor with
                 | Some y => <[2%nat := Some y]> [None; None; None]
                 | None => [None; None; None]
                 end)) as [m Hm].
  { apply M_Seq with (c1 := [None; None; None]).
    - destruct Hfam as [-> | ->]; [apply M_Alt_l | apply M_Alt_r];
        apply M_Lit.
    - apply M_Group. by apply matches_version_text. }
  rewrite Hm.
  destruct (Hsound _ _ Hm)
    as (family' & major' & minor' & Hv' & Hfam' & Heq & ->).
  assert (version_text major minor = version_text major' minor') as Heq'.
  { destruct Hfam as [-> | ->], Hfam' as [-> | ->];
      first [ by apply (inj (String.app _)) in Heq
            | cbv [String.append] in Heq; discriminate ]. }
  by destruct (version_text_inj_end _ _ _ _ Hv Hv' Heq') as [<- <-].
Qed.

Lemma exec_es_re_iff s m :
  exec es_re s = Some m
  ↔ ∃ version, digits version ∧ s = "es" +:+ version
               ∧ m = [Some s; Some version].
Proof.
  split.
  - intros (c' & H & ->)%exec_sound. unfold es_re in H.
    inversion H as [| |? ? x y ? c1 ? H1 H2| | | | |]; subst; clear H.
    inversion H2 as [| | | | | | |? ? ? ? c3 H5]; subst; clear H2.
    invert_matches. by exists y.
  - intros (version & [Hne Hds] & -> & ->). by apply exec_es_re.
Qed.

(** ** The rows of the table exclude each other *)

Lemma scan_Some_inv (targets : list target_entry) (target : string) result :
  scan targets target = Some result →
  ∃ t m, t ∈ targets ∧ exec (regExp t) target = Some m
         ∧ result = handler t (tail m).
Proof.
  induction targets as [|t targets IH]; simpl; [done |].
  destruct (exec (regExp t) target) as [m|] eqn:Ht.
  - unfold object_truthy. intros [= <-]. exists t, m. split; [by left | done].
  - intros (t' & m & Hin & Hm & ->)%IH. exists t', m. split; [by right | done].
Qed.

(** When at most one row matches, the loop returns what that row yields,
    wherever the row stands. *)
Lemma scan_Some_unique (targets : list target_entry) (target : string) t m :
  (∀ t1 t2 m1 m2, t1 ∈ targets → t2 ∈ targets →
     exec (regExp t1) target = Some m1 → exec (regExp t2) target = Some m2 →
     t1 = t2) →
  t ∈ targets → exec (regExp t) target = Some m →
  scan targets target = Some (handler t (tail m)).
Proof.
  intros Hexcl Hin Hm.
  destruct (scan targets target) as [result|] eqn:Hscan.
  - apply scan_Some_inv in Hscan as (t' & m' & Hin' & Hm' & ->).
    assert (t' = t) as -> by eauto. congruence.
  - rewrite scan_None in Hscan. rewrite (Hscan t Hin) in Hm. done.
Qed.

Ltac shape H :=
  cbn [regExp] in H;
  first
    [ apply exec_node_re_iff in H as (? & ? & ? & ? & ?)
    | apply exec_web_re_iff in H as [? ?]
    | apply exec_webworker_re_iff in H as [? ?]
    | apply exec_electron_main_re_iff in H as (? & ? & ? & ? & ?)
    | apply exec_electron_preload_re_iff in H as (? & ? & ? & ? & [?|?] & ? & ?)
    | apply exec_nwjs_re_iff in H as (? & ? & ? & ? & [?|?] & ? & ?)
    | apply exec_es_re_iff in H as (? & ? & ? & ?) ].

Lemma main_not_preload major minor major' minor' context :
  is_version major minor → is_version major' minor' →
  context = "preload" ∨ context = "renderer" →
  "electron" +:+ version_text major minor +:+ "-main"
  ≠ "electron" +:+ version_text major' minor' +:+ "-" +:+ context.
Proof.
  intros Hv Hv' Hctx Heq. apply (inj (String.app "electron")) in Heq.
  destruct (version_text_inj _ _ _ _ _ _ Hv Hv' (ends_version_dash _)
              (ends_version_dash _) Heq) as (_ & _ & Ht).
  by destruct Hctx as [-> | ->].
Qed.

Ltac different_heads :=
  match goal with
  | H : ?a = ?b |- _ =>
      first [ by apply main_not_preload in H; auto
            | by symmetry in H; apply main_not_preload in H; auto
            | cbv [String.append] in H; discriminate H ]
  end.

(** No string is matched by two rows of the table. *)
Lemma targets_exclusive (target : string) t1 t2 m1 m2 :
  t1 ∈ TARGETS → t2 ∈ TARGETS →
  exec (regExp t1) target = Some m1 → exec (regExp t2) target = Some m2 →
  t1 = t2.
Proof.
  intros Hin1 Hin2 H1 H2.
  apply list_elem_of_In in Hin1, Hin2. unfold TARGETS in Hin1, Hin2.
  cbn [In] in Hin1, Hin2.
  destruct Hin1 as [<-|[<-|[<-|[<-|[<-|[<-|[<-|[]]]]]]]];
    destruct Hin2 as [<-|[<-|[<-|[<-|[<-|[<-|[<-|[]]]]]]]];
    try reflexivity; exfalso; shape H1; shape H2; subst; different_heads.
Qed.

Lemma resolves_iff (target : string) (result : obj) :
  getTargetProperties target = Return result ↔ resolves target result.
Proof.
  unfold getTargetProperties. split.
  - destruct (scan TARGETS target) as [r|] eqn:Hscan; [| done].
    intros [= ->]. apply scan_Some_inv in Hscan as (t & m & Hin & Hm & ->).
    apply list_elem_of_In in Hin. unfold TARGETS in Hin. cbn [In] in Hin.
    destruct Hin as [<-|[<-|[<-|[<-|[<-|[<-|[<-|[]]]]]]]];
      shape Hm; subst; cbn [handler tail]; eauto using resolves.
  - intros Hres.
    assert (∃ t m, t ∈ TARGETS ∧ exec (regExp t) target = Some m
                   ∧ result = handler t (tail m)) as (t & m & Hin & Hm & ->).
    { destruct Hres as [major minor Hv| | |major minor Hv
                       |major minor context Hv Hctx
                       |family major minor Hv Hfam|version Hds].
      - eexists (Entry _ _ node_re node_handler), _.
        split; [apply list_elem_of_In; cbn; tauto |].
        split; [apply exec_node_re_iff; eauto | done].
      - eexists (Entry _ _ web_re web_handler), _.
        split; [apply list_elem_of_In; cbn; tauto |].
        split; [by apply exec_web_re_iff | done].
      - eexists (Entry _ _ webworker_re webworker_handler), _.
        split; [apply list_elem_of_In; cbn; tauto |].
        split; [by apply exec_webworker_re_iff | done].
      - eexists (Entry _ _ electron_main_re electron_main_handler), _.
        split; [apply list_elem_of_In; cbn; tauto |].
        split; [apply exec_electron_main_re_iff; eauto | done].
      - eexists (Entry _ _ electron_preload_re electron_preload_handler), _.
        split; [apply list_elem_of_In; cbn; tauto |].
        split; [apply exec_electron_preload_re_iff; eauto 10 | done].
      - eexists (Entry _ _ nwjs_re nwjs_handler), _.
        split; [apply list_elem_of_In; cbn; tauto |].
        split; [apply exec_nwjs_re_iff; eauto 10 | done].
      - eexists (Entry _ _ es_re es_handler), _.
        split; [apply list_elem_of_In; cbn; tauto |].
        split; [apply exec_es_re_iff; eauto | done]. }
    by rewrite (scan_Some_unique TARGETS target t m
                  (targets_exclusive target) Hin Hm).
Qed.

(** X1. [getTargetProperties] returns exactly for the targets of [resolves]:
    "async-node", "electron" with "-main", "-preload" or "-renderer", "nwjs"
    or "node-webkit", each with a version X or X.Y, "web", "webworker", and
    "es" with digits; the object is the one of the family's handler, which
    is handed the whole text X.Y as [major] and Y as [minor]. *)
Theorem getTargetProperties_resolves (target : string) (result : obj) :
  getTargetProperties target = Return result ↔ resolves target result.
Proof. apply resolves_iff. Qed.

(** X2. The order of the rows of the table does not matter: the loop over
    any rearrangement of [TARGETS] ends with the same outcome, because no
    string is matched by two rows. *)
Theorem scan_order_irrelevant (targets : list target_entry) (target : string) :
  targets ≡ₚ TARGETS → scan targets target = scan TARGETS target.
Proof.
  intros Hperm. destruct (scan TARGETS target) as [result|] eqn:Hscan.
  - apply scan_Some_inv in Hscan as (t & m & Hin & Hm & ->).
    apply scan_Some_unique; [| by rewrite Hperm | done].
    intros t1 t2 m1 m2 Hin1 Hin2. rewrite Hperm in Hin1, Hin2.
    by apply targets_exclusive.
  - rewrite scan_None in Hscan. apply scan_None.
    intros t Hin. rewrite Hperm in Hin. by apply Hscan.
Qed.

Lemma scan_order_irrelevant_witness :
  scan (reverse TARGETS) "electron11.0-renderer"
  = scan TARGETS "electron11.0-renderer".
Proof.
  refine (scan_order_irrelevant (reverse TARGETS) "electron11.0-renderer" _).
  apply reverse_Permutation.
Defined.

(** ** The order of numbers *)

Section Order.
Implicit Types (x y z : number) (m e E : Z).

Lemma fin_compare_scale m1 e1 m2 e2 E :
  E ≤ e1 → E ≤ e2 →
  fin_compare m1 e1 m2 e2 = (m1 * 2 ^ (e1 - E) ?= m2 * 2 ^ (e2 - E)).
Proof.
  intros H1 H2. unfold fin_compare. set (e := Z.min e1 e2).
  assert (E ≤ e) by (unfold e; lia).
  assert (e ≤ e1 ∧ e ≤ e2) as [??] by (unfold e; lia).
  assert (2 ^ (e1 - E) = 2 ^ (e1 - e) * 2 ^ (e - E)) as ->.
  { rewrite <- Z.pow_add_r by lia. f_equal. lia. }
  assert (2 ^ (e2 - E) = 2 ^ (e2 - e) * 2 ^ (e - E)) as ->.
  { rewrite <- Z.pow_add_r by lia. f_equal. lia. }
  assert (0 < 2 ^ (e - E)) by (apply Z.pow_pos_nonneg; lia).
  destruct (Z.compare_spec (m1 * 2 ^ (e1 - e)) (m2 * 2 ^ (e2 - e))),
    (Z.compare_spec (m1 * (2 ^ (e1 - e) * 2 ^ (e - E)))
                    (m2 * (2 ^ (e2 - e) * 2 ^ (e - E))));
    first [done | nia].
Qed.

Lemma num_ge_alt x y : num_ge x y = num_gt x y || num_eq x y.
Proof. unfold num_ge, num_gt, num_eq. by destruct (num_compare x y) as [[]|]. Qed.

(** [>=] is transitive on numbers; the outcome is [>] as soon as one of the
    two steps is, and [===] when both are. *)
Lemma num_order_trans x y z :
  num_ge x y = true → num_ge y z = true →
  num_ge x z = true
  ∧ (num_gt x y = true ∨ num_gt y z = true → num_gt x z = true)
  ∧ (num_eq x y = true → num_eq y z = true → num_eq x z = true).
Proof.
  unfold num_ge, num_gt, num_eq.
  destruct x as [m1 e1| | |], y as [m2 e2| | |], z as [m3 e3| | |];
    cbn [num_compare]; try (intros; split_and!; intros; by intuition).
  set (E := Z.min e1 (Z.min e2 e3)).
  rewrite (fin_compare_scale m1 e1 m2 e2 E), (fin_compare_scale m2 e2 m3 e3 E),
    (fin_compare_scale m1 e1 m3 e3 E) by (unfold E; lia).
  destruct (Z.compare_spec (m1 * 2 ^ (e1 - E)) (m2 * 2 ^ (e2 - E))),
    (Z.compare_spec (m2 * 2 ^ (e2 - E)) (m3 * 2 ^ (e3 - E))),
    (Z.compare_spec (m1 * 2 ^ (e1 - E)) (m3 * 2 ^ (e3 - E)));
    intros; split_and!; intros; first [done | lia | by intuition].
Qed.

Lemma num_gt_ge x y : num_gt x y = true → num_ge x y = true.
Proof. rewrite num_ge_alt. by intros ->. Qed.

Lemma num_eq_ge x y : num_eq x y = true → num_ge x y = true.
Proof. rewrite num_ge_alt. intros ->. by destruct (num_gt x y). Qed.
End Order.

Lemma at_least_version_trans (M m M' m' M'' m'' : number) :
  at_least_version M m M' m' = true →
  at_least_version M' m' M'' m'' = true →
  at_least_version M m M'' m'' = true.
Proof.
  unfold at_least_version.
  intros [H1|[H1 H1']%andb_prop]%orb_prop [H2|[H2 H2']%andb_prop]%orb_prop;
    apply orb_true_iff.
  - left. apply (num_order_trans M M' M''); auto using num_gt_ge.
  - left. apply (num_order_trans M M' M''); auto using num_gt_ge, num_eq_ge.
  - left. apply (num_order_trans M M' M''); auto using num_gt_ge, num_eq_ge.
  - right. apply andb_true_iff. split.
    + apply (num_order_trans M M' M''); auto using num_eq_ge.
    + by apply (num_order_trans m m' m'').
Qed.

(** ** [versionDependent] follows the order of versions *)

Lemma versionDependent_VTrue major minor vMajor vMinor :
  versionDependent major minor vMajor vMinor = VTrue
  ↔ arg_truthy major = true
    ∧ at_least_version (unary_plus major) (requested_minor minor)
        vMajor (default (int 0) vMinor) = true.
Proof.
  unfold versionDependent, at_least_version, requested_minor.
  destruct (arg_truthy major); simpl; [| naive_solver].
  destruct (_ || _); naive_solver.
Qed.

Lemma versionDependent_trans_requested
    major1 minor1 major2 minor2 vMajor vMinor :
  arg_truthy major2 = true →
  at_least_version (unary_plus major2) (requested_minor minor2)
    (unary_plus major1) (requested_minor minor1) = true →
  versionDependent major1 minor1 vMajor vMinor = VTrue →
  versionDependent major2 minor2 vMajor vMinor = VTrue.
Proof.
  rewrite !versionDependent_VTrue. intros Htruthy Hnewer [_ H1].
  eauto using at_least_version_trans.
Qed.

Lemma versionDependent_trans_baseline
    major minor vMajor vMinor vMajor' vMinor' :
  at_least_version vMajor (default (int 0) vMinor)
    vMajor' (default (int 0) vMinor') = true →
  versionDependent major minor vMajor vMinor = VTrue →
  versionDependent major minor vMajor' vMinor' = VTrue.
Proof.
  rewrite !versionDependent_VTrue. intros Holder [Htruthy H1].
  eauto using at_least_version_trans.
Qed.

(** X3. The comparator is monotone in the requested version: what is
    available for a version is available for every version that is at
    least as new. *)
Theorem versionDependent_monotone
    (major1 major2 : string) (minor1 minor2 : arg)
    (vMajor : number) (vMinor : option number) :
  major2 ≠ "" →
  at_least_version (to_number major2) (requested_minor minor2)
    (to_number major1) (requested_minor minor1) = true →
  versionDependent (Some major1) minor1 vMajor vMinor = VTrue →
  versionDependent (Some major2) minor2 vMajor vMinor = VTrue.
Proof.
  intros Hne Hnewer.
  apply (versionDependent_trans_requested (Some major1) minor1 (Some major2));
    [by destruct major2 | exact Hnewer].
Qed.

Lemma versionDependent_monotone_witness :
  versionDependent (Some "14.5") (Some "5") (int 12) (Some (int 17)) = VTrue.
Proof.
  refine (versionDependent_monotone "13" "14.5" None (Some "5") (int 12)
            (Some (int 17)) _ _ _).
  - discriminate.
  - vm_compute. reflexivity.
  - vm_compute. reflexivity.
Defined.

(** X4. The comparator is antitone in the baseline: a version for which a
    baseline is available has every baseline that is no newer. *)
Theorem versionDependent_older_baseline
    (major minor : arg) (vMajor vMajor' : number)
    (vMinor vMinor' : option number) :
  at_least_version vMajor (default (int 0) vMinor)
    vMajor' (default (int 0) vMinor') = true →
  versionDependent major minor vMajor vMinor = VTrue →
  versionDependent major minor vMajor' vMinor' = VTrue.
Proof. apply versionDependent_trans_baseline. Qed.

Lemma versionDependent_older_baseline_witness :
  versionDependent (Some "12.17") (Some "17") (int 10) (Some (int 4)) = VTrue.
Proof.
  refine (versionDependent_older_baseline (Some "12.17") (Some "17")
            (int 12) (int 10) (Some (int 17)) (Some (int 4)) _ _).
  - vm_compute. reflexivity.
  - vm_compute. reflexivity.
Defined.

(** ** What every returned object satisfies *)

Lemma is_version_truthy major minor :
  is_version major minor → arg_truthy (Some (version_text major minor)) = true.
Proof. intros [[Hne _] _]. unfold version_text. by destruct major. Qed.

Lemma lookup_list_to_map_assoc (l : list (string * value)) (key : string) :
  (list_to_map l : obj) !! key = assoc l key.
Proof.
  induction l as [|[k v] l IH]; [done |]. cbn [list_to_map foldr assoc].
  change (foldr _ _ l) with (list_to_map l : obj).
  destruct (String.eqb_spec k key) as [->|Hne].
  - apply lookup_insert_eq.
  - by rewrite lookup_insert_ne.
Qed.

Ltac unfold_handlers :=
  unfold node_handler, web_handler, webworker_handler, electron_main_handler,
    electron_preload_handler, nwjs_handler, es_handler.

Ltac handler_lookups :=
  unfold_handlers;
  rewrite ?lookup_list_to_map_assoc;
  cbn [assoc String.eqb Ascii.eqb Bool.eqb].

Ltac older_baseline :=
  let H := fresh "H" in
  intros [= H]; f_equal; revert H;
  apply versionDependent_trans_baseline; vm_compute; reflexivity.

(** X5. In every returned object the syntax flags are nested: [module]
    equals [import], [arrowFunctions] and [destructuring] equal [const], and
    [import] implies [globalThis], which implies [bigInitLiteral], which
    implies [const], which implies [forOf]. *)
Theorem syntax_flags_nested (target : string) (result : obj) :
  getTargetProperties target = Return result →
  result !! "module" = result !! "import" ∧
  result !! "arrowFunctions" = result !! "const" ∧
  result !! "destructuring" = result !! "const" ∧
  (result !! "import" = Some VTrue → result !! "globalThis" = Some VTrue) ∧
  (result !! "globalThis" = Some VTrue →
     result !! "bigInitLiteral" = Some VTrue) ∧
  (result !! "bigInitLiteral" = Some VTrue → result !! "const" = Some VTrue) ∧
  (result !! "const" = Some VTrue → result !! "forOf" = Some VTrue).
Proof.
  intros Hres%resolves_iff.
  destruct Hres; handler_lookups;
    split_and!; first [done | older_baseline].
Qed.

Lemma syntax_flags_nested_witness :
  ∃ result,
    getTargetProperties "nwjs0.43" = Return result ∧
    result !! "import" = Some VTrue ∧ result !! "forOf" = Some VTrue.
Proof.
  eexists. split; [reflexivity |].
  assert (nwjs_handler [Some "0.43"; Some "43"] !! "import" = Some VTrue)
    as Himport by (vm_compute; reflexivity).
  split; [exact Himport |].
  destruct (syntax_flags_nested "nwjs0.43" _ eq_refl)
    as (_ & _ & _ & H1 & H2 & H3 & H4).
  exact (H4 (H3 (H2 (H1 Himport)))).
Defined.

Lemma list_to_map_is_Some (l : list (string * value)) (key : string) :
  is_Some ((list_to_map l : obj) !! key) → key ∈ l.*1.
Proof.
  intros [v Hv%elem_of_list_to_map_2]. apply list_elem_of_fmap.
  by exists (key, v).
Qed.

Ltac is_member :=
  apply list_elem_of_In; cbn; repeat first [left; reflexivity | right].

Ltac known_key :=
  let Hin := fresh "Hin" in
  intros Hin%list_to_map_is_Some; cbn in Hin; each_key Hin; is_member.

(** X6. The keys of a returned object come in whole groups, as the type
    [TargetProperties] says: the platform and API keys are all there or all
    missing, so are the syntax keys, and there is no other key. *)
Theorem resolved_key_groups (target : string) (result : obj) :
  getTargetProperties target = Return result →
  (∀ key, is_Some (result !! key) →
     key ∈ platform_flags ++ api_flags ++ syntax_flags) ∧
  ((∀ key, key ∈ platform_flags ++ api_flags → is_Some (result !! key))
   ∨ (∀ key, key ∈ platform_flags ++ api_flags → result !! key = None)) ∧
  ((∀ key, key ∈ syntax_flags → is_Some (result !! key))
   ∨ (∀ key, key ∈ syntax_flags → result !! key = None)).
Proof.
  intros Hres%resolves_iff.
  destruct Hres; (split; [intros key; unfold_handlers; known_key |]).
  all: split;
    first [ left; intros key Hkey; each_key Hkey; handler_lookups; by eexists
          | right; intros key Hkey; each_key Hkey; handler_lookups;
            reflexivity ].
Qed.

Lemma resolved_key_groups_witness :
  ∃ result,
    getTargetProperties "webworker" = Return result ∧
    (∀ key, key ∈ platform_flags ++ api_flags → is_Some (result !! key)) ∧
    (∀ key, key ∈ syntax_flags → result !! key = None).
Proof.
  eexists. split; [reflexivity |].
  destruct (resolved_key_groups "webworker" _ eq_refl)
    as (_ & [Hall|Hnone] & [Hall'|Hnone']).
  - destruct (Hall' "import") as [v Hv]; [is_member | discriminate Hv].
  - by split.
  - destruct (Hall' "import") as [v Hv]; [is_member | discriminate Hv].
  - pose proof (Hnone "web" ltac:(is_member)) as Hweb. discriminate Hweb.
Defined.

Lemma node_require_false (rest : list arg) :
  not_arg (param (Some "async-" :: rest) 0) = VFalse.
Proof. reflexivity. Qed.

(** X7. The platform and API flags of a returned object are consistent:
    [require] is never [true]; [global] equals [node]; at most one of
    [electronMain], [electronPreload] and [nwjs] is [true], and then [node]
    is [true]; [document], [importScripts], [importScriptsInWorker] and
    [fetchWasm] are [true] only with [web] [true] and [node] [false]. *)
Theorem platform_flags_consistent (target : string) (result : obj) :
  getTargetProperties target = Return result →
  result !! "require" ≠ Some VTrue ∧
  result !! "global" = result !! "node" ∧
  (∀ key, key ∈ ["electronMain"; "electronPreload"; "nwjs"] →
     result !! key = Some VTrue →
     result !! "node" = Some VTrue ∧
     ∀ key', key' ∈ ["electronMain"; "electronPreload"; "nwjs"] →
       result !! key' = Some VTrue → key' = key) ∧
  (∀ key,
     key ∈ ["document"; "importScripts"; "importScriptsInWorker";
            "fetchWasm"] →
     result !! key = Some VTrue →
     result !! "web" = Some VTrue ∧ result !! "node" = Some VFalse).
Proof.
  intros Hres%resolves_iff.
  destruct Hres; split_and!;
    try (handler_lookups; rewrite ?node_require_false; done).
  all: intros key Hkey; each_key Hkey; handler_lookups; try done.
  all: intros _; split; [done |].
  all: intros key' Hkey'; each_key Hkey'; handler_lookups; done.
Qed.

Lemma platform_flags_consistent_witness :
  ∃ result,
    getTargetProperties "electron11-main" = Return result ∧
    result !! "require" ≠ Some VTrue ∧
    result !! "global" = result !! "node".
Proof.
  eexists. split; [reflexivity |].
  destruct (platform_flags_consistent "electron11-main" _ eq_refl)
    as (H1 & H2 & _).
  by split.
Defined.

(** ** Node.js targets with a whole version *)

Lemma integer_threshold (M vMajor vMinor : Z) :
  0 ≤ vMinor →
  (vMajor <? M) || ((M =? vMajor) && (vMinor <=? 0))
  = ((if vMinor =? 0 then vMajor else vMajor + 1) <=? M).
Proof.
  intros Hpos.
  destruct (Z.ltb_spec vMajor M), (Z.eqb_spec M vMajor),
    (Z.leb_spec vMinor 0), (Z.eqb_spec vMinor 0),
    (Z.leb_spec vMajor M), (Z.leb_spec (vMajor + 1) M); first [done | lia].
Qed.

(** X8. For "async-node" followed by digits of value [M] (below 2^53) and no
    minor, the syntax flags are the comparisons of [M] with the majors of
    the table; a feature whose baseline has a minor (10.4, 12.17) needs the
    next major. *)
Theorem node_whole_version (ds : string) (M : Z) :
  ds ≠ "" → read_digits ds 0 = Some M → M < 2 ^ 53 →
  ∃ result,
    getTargetProperties ("async-node" +:+ ds) = Return result ∧
    result !! "forOf" = Some (of_bool (5 <=? M)) ∧
    result !! "const" = Some (of_bool (6 <=? M)) ∧
    result !! "arrowFunctions" = Some (of_bool (6 <=? M)) ∧
    result !! "destructuring" = Some (of_bool (6 <=? M)) ∧
    result !! "bigInitLiteral" = Some (of_bool (11 <=? M)) ∧
    result !! "globalThis" = Some (of_bool (12 <=? M)) ∧
    result !! "import" = Some (of_bool (13 <=? M)) ∧
    result !! "module" = Some (of_bool (13 <=? M)).
Proof.
  intros Hne HM Hlt. destruct (read_digits_Some _ _ _ HM) as [Hds _].
  exists (node_handler [Some "async-"; Some ds; None]). split.
  - assert (version_text ds None = ds) as Hvt
      by (unfold version_text; apply app_nil_r).
    pose proof (R_node ds None ltac:(by split)) as Hres.
    rewrite Hvt in Hres. by apply resolves_iff.
  - assert (∀ vMajor vMinor,
              0 ≤ default 0 vMinor →
              versionDependent (Some ds) None (int vMajor) (int <$> vMinor)
              = of_bool ((if default 0 vMinor =? 0 then vMajor
                          else vMajor + 1) <=? M)) as Hgate.
    { intros vMajor vMinor Hpos.
      rewrite (versionDependent_integers ds None M 0) by done.
      by rewrite integer_threshold. }
    handler_lookups.
    split_and!; f_equal.
    + exact (Hgate 5 None ltac:(simpl; lia)).
    + exact (Hgate 6 None ltac:(simpl; lia)).
    + exact (Hgate 6 None ltac:(simpl; lia)).
    + exact (Hgate 6 None ltac:(simpl; lia)).
    + exact (Hgate 10 (Some 4) ltac:(simpl; lia)).
    + exact (Hgate 12 None ltac:(simpl; lia)).
    + exact (Hgate 12 (Some 17) ltac:(simpl; lia)).
    + exact (Hgate 12 (Some 17) ltac:(simpl; lia)).
Qed.

Lemma node_whole_version_witness :
  ∃ result,
    getTargetProperties "async-node10" = Return result ∧
    result !! "const" = Some VTrue ∧
    result !! "bigInitLiteral" = Some VFalse.
Proof.
  destruct (node_whole_version "10" 10) as (result & Hres & H);
    [discriminate | reflexivity | reflexivity |].
  exists result. split; [exact Hres |].
  destruct H as (_ & Hconst & _ & _ & Hbig & _). by split.
Defined.

(** ** Merging, as a whole *)

Section MergeWhole.
Implicit Types (tps : list obj) (tp : obj) (key : string) (any : bool).

(** The merged value of a key in closed form. *)
Lemma merge_key_closed any key tps :
  merge_key any key tps (of_bool (negb any))
  = of_bool (if any
             then bool_decide (Exists (λ tp, tp !! key = Some VTrue) tps)
             else negb (bool_decide
                          (Exists (λ tp, tp !! key = Some VFalse) tps))).
Proof.
  destruct any; simpl; case_bool_decide as Hex; rewrite Exists_exists in Hex.
  - by apply merge_key_any_true.
  - apply merge_key_any_kept. naive_solver.
  - by apply merge_key_all_false.
  - apply merge_key_all_kept. naive_solver.
Qed.

Lemma lookup_merge_closed tps any key :
  mergeTargetProperties tps any !! key
  = if decide (Exists (λ tp, is_Some (tp !! key)) tps)
    then Some (of_bool
                 (if any
                  then bool_decide (Exists (λ tp, tp !! key = Some VTrue) tps)
                  else negb (bool_decide
                               (Exists (λ tp, tp !! key = Some VFalse) tps))))
    else None.
Proof.
  rewrite lookup_merge, merge_key_closed. apply decide_ext.
  by rewrite elem_of_collect_keys, Exists_exists.
Qed.

Lemma Exists_perm (P : obj → Prop) tps tps' :
  tps ≡ₚ tps' → Exists P tps ↔ Exists P tps'.
Proof.
  intros Hperm. rewrite !Exists_exists.
  split; intros (tp & Hin & HP); exists tp; (split; [| done]).
  - by rewrite <- Hperm.
  - by rewrite Hperm.
Qed.

Lemma merge_permutation_lemma tps tps' any :
  tps ≡ₚ tps' → mergeTargetProperties tps any = mergeTargetProperties tps' any.
Proof.
  intros Hperm. apply map_eq. intros key. rewrite !lookup_merge_closed.
  rewrite (decide_ext (Exists (λ tp, is_Some (tp !! key)) tps)
             (Exists (λ tp, is_Some (tp !! key)) tps'))
    by by apply Exists_perm.
  rewrite (bool_decide_ext (Exists (λ tp, tp !! key = Some VTrue) tps)
             (Exists (λ tp, tp !! key = Some VTrue) tps'))
    by by apply Exists_perm.
  by rewrite (bool_decide_ext (Exists (λ tp, tp !! key = Some VFalse) tps)
                (Exists (λ tp, tp !! key = Some VFalse) tps'))
    by by apply Exists_perm.
Qed.

Lemma merge_boolean tps any : all_boolean (mergeTargetProperties tps any).
Proof.
  intros key v. rewrite lookup_merge_closed. case_decide; [| done].
  intros [= <-]. destruct any; by destruct (bool_decide _); auto.
Qed.

Lemma lookup_merge_eq tps any key (b : bool) :
  mergeTargetProperties tps any !! key = Some (of_bool b)
  ↔ Exists (λ tp, is_Some (tp !! key)) tps
    ∧ if any then (b = true ↔ Exists (λ tp, tp !! key = Some VTrue) tps)
      else (b = false ↔ Exists (λ tp, tp !! key = Some VFalse) tps).
Proof.
  rewrite lookup_merge_closed. case_decide; [| naive_solver].
  destruct any, b; case_bool_decide; naive_solver.
Qed.

Lemma merge_singleton_lemma tp any :
  all_boolean tp → mergeTargetProperties [tp] any = tp.
Proof.
  intros Hbool. apply map_eq. intros key. rewrite lookup_merge_closed.
  rewrite (decide_ext _ (is_Some (tp !! key)))
    by (rewrite Exists_cons, Exists_nil; tauto).
  rewrite (bool_decide_ext _ (tp !! key = Some VTrue))
    by (rewrite Exists_cons, Exists_nil; tauto).
  rewrite (bool_decide_ext (Exists _ _) (tp !! key = Some VFalse))
    by (rewrite Exists_cons, Exists_nil; tauto).
  destruct (tp !! key) as [v|] eqn:Hv.
  - rewrite decide_True by done.
    destruct (Hbool key v Hv) as [-> | ->], any; by simpl.
  - rewrite decide_False; [done | by intros []].
Qed.
End MergeWhole.

(** X9. The order of the objects does not matter to the merge, in either
    mode. *)
Theorem merge_permutation (tps tps' : list obj) (any : bool) :
  tps ≡ₚ tps' → mergeTargetProperties tps any = mergeTargetProperties tps' any.
Proof. apply merge_permutation_lemma. Qed.

Lemma merge_permutation_witness :
  mergeTargetProperties [{["a" := VTrue]}; {["a" := VFalse]}; ∅] false
  = mergeTargetProperties [∅; {["a" := VFalse]}; {["a" := VTrue]}] false.
Proof.
  refine (merge_permutation _ _ false _).
  change [∅; {["a" := VFalse]}; {["a" := VTrue]}]
    with (reverse [{["a" := VTrue]}; {["a" := VFalse]}; (∅ : obj)]).
  symmetry. apply reverse_Permutation.
Defined.

(** X10. Merging can be done in stages: merging two lists at once gives the
    same object as merging each list and then merging the two results, in
    either mode. *)
Theorem merge_app (tps1 tps2 : list obj) (any : bool) :
  mergeTargetProperties (tps1 ++ tps2) any
  = mergeTargetProperties
      [mergeTargetProperties tps1 any; mergeTargetProperties tps2 any] any.
Proof.
  apply map_eq. intros key.
  rewrite (lookup_merge_closed [_; _]), lookup_merge_closed.
  assert (∀ tps, is_Some (mergeTargetProperties tps any !! key)
                 ↔ Exists (λ tp, is_Some (tp !! key)) tps) as Hsome.
  { intros tps. rewrite lookup_merge_closed. case_decide; [| by split; [intros [] |]].
    split; [done | by eexists]. }
  assert (∀ tps, mergeTargetProperties tps true !! key = Some VTrue
                 ↔ Exists (λ tp, tp !! key = Some VTrue) tps) as Htrue.
  { intros tps. rewrite (lookup_merge_eq tps true key true).
    split; [naive_solver |]. intros Hex. split; [| done].
    eapply Exists_impl; [done |]. by intros tp ->. }
  assert (∀ tps, mergeTargetProperties tps false !! key = Some VFalse
                 ↔ Exists (λ tp, tp !! key = Some VFalse) tps) as Hfalse.
  { intros tps. rewrite (lookup_merge_eq tps false key false).
    split; [naive_solver |]. intros Hex. split; [| done].
    eapply Exists_impl; [done |]. by intros tp ->. }
  rewrite (decide_ext
             (Exists (λ tp, is_Some (tp !! key))
                [mergeTargetProperties tps1 any;
                 mergeTargetProperties tps2 any])
             (Exists (λ tp, is_Some (tp !! key)) (tps1 ++ tps2)))
    by (rewrite !Exists_cons, Exists_nil, Exists_app, !Hsome; tauto).
  case_decide; [| done]. f_equal. f_equal. destruct any.
  - apply bool_decide_ext.
    rewrite !Exists_cons, Exists_nil, Exists_app, !Htrue. tauto.
  - f_equal. apply bool_decide_ext.
    rewrite !Exists_cons, Exists_nil, Exists_app, !Hfalse. tauto.
Qed.

(** X11. Merging a single object whose values are all booleans returns it
    unchanged; hence merging is idempotent. *)
Theorem merge_singleton (tps : list obj) (tp : obj) (any : bool) :
  (all_boolean tp → mergeTargetProperties [tp] any = tp) ∧
  mergeTargetProperties [mergeTargetProperties tps any] any
  = mergeTargetProperties tps any.
Proof.
  split; [apply merge_singleton_lemma |].
  apply merge_singleton_lemma, merge_boolean.
Qed.

Lemma merge_singleton_witness :
  mergeTargetProperties [{["a" := VTrue; "b" := VFalse]}] false
  = {["a" := VTrue; "b" := VFalse]}.
Proof.
  refine (proj1 (merge_singleton [] {["a" := VTrue; "b" := VFalse]} false) _).
  intros key v Hv. destruct v; [by left | by right |].
  apply elem_of_map_to_list in Hv. vm_compute in Hv.
  apply list_elem_of_In in Hv. simpl in Hv.
  destruct Hv as [[=]|[[=]|[]]].
Defined.

(** ** Several targets, as a whole *)

Lemma resolves_boolean (target : string) (result : obj) :
  resolves target result → all_boolean result.
Proof.
  assert (∀ major minor, is_version major minor →
            version_text major minor ≠ "") as Hne.
  { intros major minor [[Hne _] _]. unfold version_text.
    by apply app_not_nil. }
  destruct 1;
    auto using node_handler_boolean, web_handler_boolean,
      webworker_handler_boolean, electron_main_handler_boolean,
      electron_preload_handler_boolean, nwjs_handler_boolean,
      es_handler_boolean.
Qed.

Lemma map_throwing_resolved (targets : list string) (tps : list obj) :
  map_throwing getTargetProperties targets = Return tps
  ↔ Forall (λ t, ∃ result, resolves t result) targets
    ∧ tps = resolved <$> targets.
Proof.
  revert tps. induction targets as [|t targets IH]; intros tps; simpl.
  - split; [by intros [= <-] | by intros [_ ->]].
  - unfold resolved at 1.
    destruct (getTargetProperties t) as [result|msg] eqn:Ht.
    + destruct (map_throwing getTargetProperties targets) as [ys|msg] eqn:Hts.
      * destruct (proj1 (IH ys) eq_refl) as [Hall ->].
        split; [| by intros [_ ->]]. intros [= <-]. split; [| done].
        constructor; [| done]. exists result. by apply resolves_iff.
      * split; [done |]. intros [Hall ->].
        apply Forall_cons in Hall as [_ Hall].
        discriminate (proj2 (IH (resolved <$> targets)) (conj Hall eq_refl)).
    + split; [done |]. intros [Hall _].
      apply Forall_cons in Hall as [[result Hres%resolves_iff] _]. congruence.
Qed.

(** X12. For a single target, [getTargetsProperties] is
    [getTargetProperties]: the same object, or the same error. *)
Theorem getTargetsProperties_singleton (target : string) :
  getTargetsProperties [target] = getTargetProperties target.
Proof.
  unfold getTargetsProperties. simpl.
  destruct (getTargetProperties target) as [result|msg] eqn:Ht; [| done].
  f_equal. apply merge_singleton_lemma.
  by apply (resolves_boolean target), resolves_iff.
Qed.


(** X14. When every target resolves, the order of the targets does not
    matter to [getTargetsProperties]. *)
Theorem getTargetsProperties_permutation
    (targets targets' : list string) (result : obj) :
  targets ≡ₚ targets' →
  getTargetsProperties targets = Return result →
  getTargetsProperties targets' = Return result.
Proof.
  intros Hperm. unfold getTargetsProperties.
  destruct (map_throwing getTargetProperties targets) as [tps|] eqn:Hts;
    [| done].
  apply map_throwing_resolved in Hts as [Hall ->]. intros [= <-].
  rewrite (proj2 (map_throwing_resolved targets' (resolved <$> targets'))).
  - f_equal. apply merge_permutation_lemma. by rewrite Hperm.
  - split; [by rewrite <- Hperm | done].
Qed.

Lemma getTargetsProperties_permutation_witness :
  getTargetsProperties ["es2020"; "web"]
  = Return (mergeTargetProperties [resolved "web"; resolved "es2020"] false).
Proof.
  refine (getTargetsProperties_permutation ["web"; "es2020"] _ _ _ _).
  - apply Permutation_swap.
  - reflexivity.
Defined.
